(** * PS/2 keyboard firmware (keyboard.c): a shallow embedding and its properties

    The firmware targets an 8051 compiled with SDCC: [unsigned char] has
    8 bits, [int] and [unsigned int] have 16 bits and [uint32_t] has 32.
    Integers are modelled as [Z] with the wrap-around of each conversion
    written out.  The port pins are abstracted to a trace of events: one
    [Tx] per call of [transmit] (carrying the eleven DATA bits the loop
    clocks out), one [Rx] per call of [receive] and one [Delay] per
    call of [delay_us] made between frames by [sendCode] and
    [followCommand].  The clock half-periods inside a frame belong to
    its [Tx] or [Rx]; the settling delays of [main] (after each column
    and at the end of each round) are not recorded.  Interrupts are
    masked ([EA = 0]) while a frame sequence or a command is under way,
    so the timer interrupt is an operation of its own that runs between
    the others. *)

From Stdlib Require Import ZArith Lia Bool.
From stdpp Require Import base decidable list.

Local Open Scope Z_scope.

(** ** Constants ([#define]s of keyboard.c) *)

Definition BREAK : Z := 336.
Definition EXT : Z := 0x02E0.
Definition REL : Z := 0x03F0.
Definition ACK : Z := 0x03FA.
Definition RE : Z := 0x02FE.

(** [const uint32_t KEY_SCAN_CODES[14][6]] *)
Definition KEY_SCAN_CODES : list (list Z) :=
  [ [ 0x0314; 0x0312; 0x0258; 0x020d; 0x020e; 0x0276 ];
    [ 0xe0021f; 0x021a; 0x021c; 0x0215; 0x0216; 0x00 ];
    [ 0x0311; 0x0322; 0x031b; 0x031d; 0x031e; 0x0305 ];
    [ 0x00; 0x0321; 0x0223; 0x0324; 0x0226; 0x0306 ];
    [ 0x00; 0x022a; 0x032b; 0x032d; 0x0225; 0x0204 ];
    [ 0x00; 0x0232; 0x0234; 0x022c; 0x032e; 0x030c ];
    [ 0x0229; 0x0231; 0x0333; 0x0335; 0x0336; 0x00 ];
    [ 0x00; 0x033a; 0x023b; 0x033c; 0x023d; 0x0303 ];
    [ 0x00; 0x0341; 0x0342; 0x0243; 0x023e; 0x020b ];
    [ 0xe00311; 0x0249; 0x034b; 0x0344; 0x0246; 0x0283 ];
    [ 0xe00327; 0x024a; 0x024c; 0x034d; 0x0245; 0x030a ];
    [ 0xe0022f; 0x00; 0x0252; 0x0254; 0x034e; 0x0201 ];
    [ 0x00; 0x00; 0x0378; 0x025b; 0x0355; 0x0309 ];
    [ 0xe00314; 0x0359; 0x035a; 0x025d; 0x0366; 0x0207 ] ].

(** ** Two-dimensional arrays as lists of columns

    The loops of [main] keep the indices inside the array; outside it
    [get] reads 0 and [set] stores nothing. *)

Module Matrix.

Definition get (m : list (list Z)) (i j : nat) : Z :=
  match m !! i with
  | Some col => default 0 (col !! j)
  | None => 0
  end.

Definition set (m : list (list Z)) (i j : nat) (v : Z) : list (list Z) :=
  match m !! i with
  | Some col => <[i := <[j := v]> col]> m
  | None => m
  end.

(** The shape of [unsigned char keyStamps[14][6]]. *)
Definition shaped (m : list (list Z)) : Prop :=
  length m = 14%nat /\ Forall (fun col : list Z => length col = 6%nat) m.

Definition zeros : list (list Z) := replicate 14 (replicate 6 0).

End Matrix.

Definition code_at (i j : nat) : Z := Matrix.get KEY_SCAN_CODES i j.

(** ** Events and the machine state *)

Inductive event : Type :=
  | Tx (bits : list bool)   (* one frame clocked out by [transmit] *)
  | Delay (us : Z)          (* [delay_us(us)] between frames *)
  | Rx.                     (* one host frame clocked in by [receive] *)

#[global] Instance event_eq_dec : EqDecision event.
Proof. solve_decision. Defined.

(** The file-scope variables, the local [keyStamps] of [main], the
    Caps-Lock pin P2.3 and the frames the host still has to send (each
    one as the DATA levels sampled at the successive device clocks). *)
Record world : Type := World {
  LAST_BYTE : Z;
  ENABLE : Z;
  REPEAT_RATE : Z;
  REPEAT_DELAY : Z;
  ELAPSED_TIME : Z;
  keyStamps : list (list Z);
  CAPS_LED : bool;
  host : list (list bool)
}.

Definition set_LAST_BYTE (v : Z) (w : world) : world :=
  World v (ENABLE w) (REPEAT_RATE w) (REPEAT_DELAY w) (ELAPSED_TIME w)
        (keyStamps w) (CAPS_LED w) (host w).
Definition set_ENABLE (v : Z) (w : world) : world :=
  World (LAST_BYTE w) v (REPEAT_RATE w) (REPEAT_DELAY w) (ELAPSED_TIME w)
        (keyStamps w) (CAPS_LED w) (host w).
Definition set_REPEAT_RATE (v : Z) (w : world) : world :=
  World (LAST_BYTE w) (ENABLE w) v (REPEAT_DELAY w) (ELAPSED_TIME w)
        (keyStamps w) (CAPS_LED w) (host w).
Definition set_REPEAT_DELAY (v : Z) (w : world) : world :=
  World (LAST_BYTE w) (ENABLE w) (REPEAT_RATE w) v (ELAPSED_TIME w)
        (keyStamps w) (CAPS_LED w) (host w).
Definition set_ELAPSED_TIME (v : Z) (w : world) : world :=
  World (LAST_BYTE w) (ENABLE w) (REPEAT_RATE w) (REPEAT_DELAY w) v
        (keyStamps w) (CAPS_LED w) (host w).
Definition set_keyStamps (m : list (list Z)) (w : world) : world :=
  World (LAST_BYTE w) (ENABLE w) (REPEAT_RATE w) (REPEAT_DELAY w)
        (ELAPSED_TIME w) m (CAPS_LED w) (host w).
Definition set_CAPS_LED (b : bool) (w : world) : world :=
  World (LAST_BYTE w) (ENABLE w) (REPEAT_RATE w) (REPEAT_DELAY w)
        (ELAPSED_TIME w) (keyStamps w) b (host w).
Definition set_host (h : list (list bool)) (w : world) : world :=
  World (LAST_BYTE w) (ENABLE w) (REPEAT_RATE w) (REPEAT_DELAY w)
        (ELAPSED_TIME w) (keyStamps w) (CAPS_LED w) h.

(** The state on entry to [while(1)]: the initialisers of the
    file-scope variables, and P2.3 high after [P2 = 0x0f].  [keyStamps]
    is not initialised by the source; the boot state takes it all zero,
    every key released. *)
Definition boot : world :=
  World 0x00 1 50 100 0 Matrix.zeros true [].

(** ** A monad for the firmware's routines

    A routine maps a state to the events it emitted, the state it left
    and its return value; the value is [None] when the routine is stuck
    in the busy-wait of [receive] because the host sends nothing. *)

Record result (A : Type) : Type := Result {
  out : list event;
  post : world;
  val : option A
}.
Arguments Result {A} _ _ _.
Arguments out {A} _.
Arguments post {A} _.
Arguments val {A} _.

Definition M (A : Type) : Type := world -> result A.

Definition ret {A} (x : A) : M A := fun w => Result [] w (Some x).

Definition bind {A B} (m : M A) (f : A -> M B) : M B := fun w =>
  let r := m w in
  match val r with
  | None => Result (out r) (post r) None
  | Some a => let r' := f a (post r) in
              Result (out r ++ out r') (post r') (val r')
  end.

Notation "x <- m ;; k" := (bind m (fun x => k))
  (at level 100, m at next level, right associativity).
Notation "m ;; k" := (bind m (fun _ => k))
  (at level 100, right associativity).

Definition get {A} (f : world -> A) : M A := fun w => Result [] w (Some (f w)).
Definition modify (f : world -> world) : M unit := fun w => Result [] (f w) (Some tt).
Definition emit (e : event) : M unit := fun w => Result [e] w (Some tt).

(** The frames of a trace, in order. *)
Fixpoint frames (evs : list event) : list (list bool) :=
  match evs with
  | [] => []
  | Tx b :: evs' => b :: frames evs'
  | _ :: evs' => frames evs'
  end.

(** ** timer2Int *)

Definition timer2Int : M unit :=
  modify (fun w => set_ELAPSED_TIME ((ELAPSED_TIME w + 1) mod 256) w) ;;
  t <- get ELAPSED_TIME ;;
  if t >? 127 then modify (set_ELAPSED_TIME 0) else ret tt.

(** ** delay_us: only the requested duration is kept *)

Definition delay_us (us : Z) : M unit := emit (Delay us).

(** ** transmit *)

(** The [while( index < 11 )] loop: each round puts bit 0 of [keycode]
    on DATA, pulses the clock and shifts [keycode] right. *)
Fixpoint transmit_loop (rounds : nat) (keycode : Z) : list bool :=
  match rounds with
  | O => []
  | S n => Z.testbit keycode 0 :: transmit_loop n (Z.shiftr keycode 1)
  end.

(** The DATA bits of [transmit(keycode)], [keycode] a 16-bit unsigned
    value: [keycode <<= 1] wraps at 16 bits and supplies the start bit. *)
Definition frame_bits (keycode : Z) : list bool :=
  transmit_loop 11 (Z.shiftl keycode 1 mod 65536).

(** The argument is converted to [unsigned int] at the call.  The last
    round of the loop leaves bit 12 of the code on P2.3 and
    [P2 |= (0xf8 & bkup)] then ORs in the level from before the call;
    every code the firmware passes is below 0x400, so the pin keeps
    its level. *)
Definition transmit (keycode : Z) : M unit :=
  let keycode := keycode mod 65536 in
  modify (set_LAST_BYTE keycode) ;;
  emit (Tx (frame_bits keycode)).

(** ** receive *)

(** The [while( index < 10 )] loop over the DATA levels sampled after
    each rising clock edge: [buffer |= ((P2 & 0x01) << (index++))]. *)
Fixpoint receive_loop (rounds : nat) (index : Z) (samples : list bool) (buffer : Z) : Z :=
  match rounds with
  | O => buffer
  | S n =>
      let bit := if hd false samples then 1 else 0 in
      receive_loop n (index + 1) (tl samples) (Z.lor buffer (Z.shiftl bit index))
  end.

(** The value [receive] returns when the host presents [samples]. *)
Definition rx_value (samples : list bool) : Z := receive_loop 10 0 samples 0.

Definition receive : M Z := fun w =>
  match host w with
  | [] => Result [] w None
  | samples :: rest => Result [Rx] (set_host rest w) (Some (rx_value samples))
  end.

(** ** sendCode *)

Definition sendCode (keycode : Z) (keyState : bool) : M unit :=
  if keyState then
    if Z.land keycode 0xff0000 =? 0xe00000 then
      transmit EXT ;; delay_us BREAK ;;
      transmit keycode ;; delay_us BREAK
    else
      transmit keycode ;; delay_us BREAK
  else
    if Z.land keycode 0xff0000 =? 0xe00000 then
      transmit EXT ;; delay_us BREAK ;;
      transmit REL ;; delay_us BREAK ;;
      transmit keycode ;; delay_us BREAK
    else
      transmit REL ;; delay_us BREAK ;;
      transmit keycode ;; delay_us BREAK.

(** ** followCommand *)

(** The value the first [if]/[else] chain of case 0xf3 assigns to
    [REPEAT_RATE]. *)
Definition rate_of_arg (arg : Z) : Z :=
  if (Z.land arg 0x1f >=? 0x18) && (Z.land arg 0x1f <=? 0x1f) then 50
  else if (Z.land arg 0x1f >=? 0x10) && (Z.land arg 0x1f <=? 0x17) then 25
  else if (Z.land arg 0x1f >=? 0x08) && (Z.land arg 0x1f <=? 0x0f) then 12
  else if (Z.land arg 0x1f >=? 0x04) && (Z.land arg 0x1f <=? 0x07) then 6
  else 3.

(** The value the second chain assigns to [REPEAT_DELAY]. *)
Definition delay_of_arg (arg : Z) : Z :=
  if Z.land arg 0x60 =? 0x20 then 50
  else if Z.land arg 0x60 =? 0x40 then 75
  else if Z.land arg 0x60 =? 0x60 then 100
  else 25.

Definition followCommand (command : Z) : M unit :=
  let command := Z.land (command mod 65536) 0xff in
  match command with
  | 0xed =>
      transmit ACK ;;
      arg <- receive ;;
      transmit ACK ;;
      if negb (Z.land arg 0x04 =? 0) then modify (set_CAPS_LED true)
      else modify (set_CAPS_LED false)
  | 0xee => transmit 0x03ee
  | 0xf0 =>
      transmit ACK ;;
      arg <- receive ;;
      transmit ACK ;;
      if Z.land arg 0xff =? 0 then transmit 0x0341 else ret tt
  | 0xf2 =>
      transmit ACK ;;
      transmit 0x02ab ;;
      delay_us BREAK ;;
      transmit 0x0283
  | 0xf3 =>
      transmit ACK ;;
      arg <- receive ;;
      transmit ACK ;;
      modify (set_REPEAT_RATE (rate_of_arg arg)) ;;
      modify (set_REPEAT_DELAY (delay_of_arg arg))
  | 0xf4 => transmit ACK ;; modify (set_ENABLE 1)
  | 0xf5 => transmit ACK ;; modify (set_ENABLE 0)
  | 0xfe =>
      transmit ACK ;;
      last <- get LAST_BYTE ;;
      transmit last
  | 0xff =>
      transmit ACK ;;
      delay_us BREAK ;;
      transmit 0x03aa
  | 0xf6 | 0xf7 | 0xf8 | 0xf9 | 0xfa => transmit ACK
  | 0xfb | 0xfc | 0xfd =>
      transmit ACK ;;
      _ <- receive ;;
      transmit ACK
  | _ => transmit RE
  end.

(** ** The scanner: the body of the two [for] loops of [main] *)

(** The elapsed time the repeat-delay test uses once the tick has
    wrapped below the stamp: [(127 - keyStamps[i][j]) + ELAPSED_TIME]. *)
Definition wrap_elapsed (s t : Z) : Z := (127 - s) + t.

(** The three-way disjunction guarding the repeating phase, for a
    nonzero stamp [s], the tick [t] and [REPEAT_DELAY]. *)
Definition repeat_due (s t delay : Z) : bool :=
  (s >=? 128)
  || ((t >? s) && (t - s >=? delay))
  || ((t <? s) && (wrap_elapsed s t >=? delay)).

Definition stamp_at (i j : nat) : M Z := get (fun w => Matrix.get (keyStamps w) i j).

(** A store into the [unsigned char] cell [keyStamps[i][j]]. *)
Definition set_stamp (i j : nat) (v : Z) : M unit :=
  modify (fun w => set_keyStamps (Matrix.set (keyStamps w) i j (v mod 256)) w).

(** One visit of the cell of column [i] and row [j]: [clk] is the CLOCK
    level read from P2.1 before the key is looked at, [pressed] the row
    level read from P0.  The tick interrupt is taken between visits, so
    the reads of [ELAPSED_TIME] within one visit agree.  [REPEAT_RATE]
    is 50 at boot and only ever set to 3, 6, 12, 25 or 50, so the [%]
    never divides by zero. *)
Definition scan_cell (i j : nat) (clk pressed : bool) : M unit :=
  if negb clk then ret tt (* goto start *)
  else if pressed then
    s <- stamp_at i j ;;
    if s =? 0 then
      sendCode (code_at i j) true ;;
      t <- get ELAPSED_TIME ;;
      set_stamp i j t
    else
      t <- get ELAPSED_TIME ;;
      delay <- get REPEAT_DELAY ;;
      if repeat_due s t delay then
        set_stamp i j (Z.lor s 0x80) ;;
        s' <- stamp_at i j ;;
        rate <- get REPEAT_RATE ;;
        if (Z.rem t rate =? 0) && negb (Z.land s' 0x7f =? t) then
          set_stamp i j (Z.lor 0x80 t) ;;
          sendCode (code_at i j) true
        else ret tt
      else ret tt
  else
    s <- stamp_at i j ;;
    if negb (s =? 0) then
      sendCode (code_at i j) false ;;
      set_stamp i j 0
    else ret tt.

(** ** Operations of the main loop

    [Tick] is one run of the timer interrupt, [Scan] one cell visit
    inside the [ENABLE]-guarded sweep and [Serve] the branch taken on a
    request to send: [buffer = receive(); followCommand(buffer);]. *)

Inductive op : Type :=
  | Tick
  | Scan (i j : nat) (clk pressed : bool)
  | Serve.

#[global] Instance op_eq_dec : EqDecision op.
Proof. solve_decision. Defined.

Definition serve : M unit :=
  buffer <- receive ;;
  followCommand buffer.

Definition step (o : op) : M unit :=
  match o with
  | Tick => timer2Int
  | Scan i j clk pressed =>
      en <- get ENABLE ;;
      if negb (en =? 0) then scan_cell i j clk pressed else ret tt
  | Serve => serve
  end.

(** Running a sequence of operations; a stuck operation ends the run. *)
Fixpoint run (ops : list op) : M unit :=
  match ops with
  | [] => ret tt
  | o :: ops' => step o ;; run ops'
  end.

(** The same run, keeping for each operation the state it started in
    and the events it emitted. *)
Record entry : Type := Entry {
  performed : op;
  before : world;
  emitted : list event
}.

Fixpoint trace_of (ops : list op) (w : world) : list entry :=
  match ops with
  | [] => []
  | o :: ops' =>
      let r := step o w in
      Entry o w (out r) :: match val r with
                           | Some _ => trace_of ops' (post r)
                           | None => []
                           end
  end.

(** ** The sweep of [main]

    What the scanner reads at a cell: the tick interrupts taken since
    the visit before, the CLOCK level and the row level. *)
Record reading : Type := Reading {
  ticks : nat;
  clock : bool;
  row : bool
}.

(** The cells in the order of [for(i = 0; i < 14; i++)] and
    [for(j = 0; j < 6; j++)]. *)
Definition cells : list (nat * nat) :=
  flat_map (fun i => map (fun j => (i, j)) (seq 0 6)) (seq 0 14).

(** The operations of one sweep: the cells are visited in order, and
    the first visit that reads CLOCK low ends the sweep ([goto start]). *)
Fixpoint sweep_from (cs : list (nat * nat)) (read : nat -> nat -> reading) : list op :=
  match cs with
  | [] => []
  | (i, j) :: cs' =>
      let r := read i j in
      replicate (ticks r) Tick
      ++ Scan i j (clock r) (row r)
         :: (if clock r then sweep_from cs' read else [])
  end.

Definition sweep (read : nat -> nat -> reading) : list op := sweep_from cells read.

(** One round of [while(1)]: nothing while the host holds CLOCK low,
    the command branch on a request to send, else a sweep (whose visits
    do nothing when [ENABLE] is 0, see [step]). *)
Definition main_round (clk data : bool) (read : nat -> nat -> reading) : list op :=
  if negb clk then []
  else if negb data then [Serve]
  else sweep read.

(** ** Vocabulary of the specification *)

(** The eight data bits of a byte, least significant first. *)
Fixpoint byte_bits (n : nat) (b : Z) : list bool :=
  match n with
  | O => []
  | S n' => Z.odd b :: byte_bits n' (b / 2)
  end.

Fixpoint ones (l : list bool) : nat :=
  match l with
  | [] => O
  | b :: l' => ((if b then 1 else 0) + ones l')%nat
  end.

(** The parity bit that makes the number of ones odd. *)
Definition odd_parity (data : list bool) : bool := Nat.even (ones data).

(** The PS/2 frame of a data byte: start, d0..d7, parity, stop. *)
Definition frame (b : Z) : list bool :=
  [false] ++ byte_bits 8 b ++ [odd_parity (byte_bits 8 b); true].

(** The ten DATA levels a host presents for a byte: d0..d7, parity, stop. *)
Definition host_frame (b : Z) : list bool :=
  byte_bits 8 b ++ [odd_parity (byte_bits 8 b); true].

(** Frame well-formedness: eleven bits, start 0, stop 1, and an odd
    number of ones among the eight data bits and the parity bit. *)
Definition well_formed (bits : list bool) : bool :=
  (length bits =? 11)%nat
  && negb (nth 0 bits true)
  && nth 10 bits false
  && Nat.odd (ones (take 9 (drop 1 bits))).

Definition all_well_formed (evs : list event) : bool :=
  forallb well_formed (frames evs).

(** Idle time between successive frames of a trace: for each frame but
    the first, the sum of the delays since the frame before it. *)
Fixpoint gaps_from (idle : option Z) (evs : list event) : list Z :=
  match evs with
  | [] => []
  | Tx _ :: evs' =>
      match idle with
      | Some d => d :: gaps_from (Some 0) evs'
      | None => gaps_from (Some 0) evs'
      end
  | Delay us :: evs' => gaps_from (option_map (Z.add us) idle) evs'
  | Rx :: evs' => gaps_from idle evs'
  end.

Definition gaps (evs : list event) : list Z := gaps_from None evs.

(** The command bytes the interpreter has a case for. *)
Definition known_command (c : Z) : bool :=
  existsb (Z.eqb c)
    [0xed; 0xee; 0xf0; 0xf2; 0xf3; 0xf4; 0xf5; 0xf6; 0xf7; 0xf8; 0xf9; 0xfa;
     0xfb; 0xfc; 0xfd; 0xfe; 0xff].



(** Make and break sequences of a packed code, with their inter-byte
    delays. *)
Definition extended (code : Z) : bool := Z.land code 0xff0000 =? 0xe00000.

Definition make_sequence (code : Z) : list event :=
  (if extended code then [Tx (frame 0xE0); Delay BREAK] else [])
  ++ [Tx (frame_bits (code mod 65536)); Delay BREAK].

Definition break_sequence (code : Z) : list event :=
  (if extended code then [Tx (frame 0xE0); Delay BREAK] else [])
  ++ [Tx (frame 0xF0); Delay BREAK; Tx (frame_bits (code mod 65536)); Delay BREAK].

(** Counting, in a run, the make and break sequences emitted at the
    visits of the key of column [i] and row [j]. *)
Definition visits (i j : nat) (o : op) : bool :=
  match o with
  | Scan i' j' _ _ => bool_decide (i' = i) && bool_decide (j' = j)
  | _ => false
  end.

Definition is_make (i j : nat) (e : entry) : bool :=
  visits i j (performed e)
  && bool_decide (emitted e = make_sequence (code_at i j)).

Definition is_break (i j : nat) (e : entry) : bool :=
  visits i j (performed e)
  && bool_decide (emitted e = break_sequence (code_at i j)).

(** A make is a first make when the key was released before the visit,
    and a typematic repeat when it was already pressed. *)
Definition released_before (i j : nat) (e : entry) : bool :=
  Matrix.get (keyStamps (before e)) i j =? 0.

Definition is_first_make (i j : nat) (e : entry) : bool :=
  is_make i j e && released_before i j e.

Definition is_repeat (i j : nat) (e : entry) : bool :=
  is_make i j e && negb (released_before i j e).

Definition tally (p : entry -> bool) (e : entry) : nat :=
  if p e then 1%nat else 0%nat.

Fixpoint count (p : entry -> bool) (tr : list entry) : nat :=
  match tr with
  | [] => O
  | e :: tr' => (tally p e + count p tr')%nat
  end.

Definition makes (i j : nat) (tr : list entry) : nat := count (is_make i j) tr.
Definition breaks (i j : nat) (tr : list entry) : nat := count (is_break i j) tr.
Definition first_makes (i j : nat) (tr : list entry) : nat :=
  count (is_first_make i j) tr.
Definition repeats (i j : nat) (tr : list entry) : nat := count (is_repeat i j) tr.

(** 1 when the key's state is nonzero (pressed), else 0. *)
Definition held (w : world) (i j : nat) : nat :=
  if Matrix.get (keyStamps w) i j =? 0 then 0%nat else 1%nat.

(** Two states that differ at most in bits 8 and above of the values
    the host is still to send. *)
Definition low8_agree (s1 s2 : list bool) : Prop :=
  Z.land (rx_value s1) 0xff = Z.land (rx_value s2) 0xff.

Definition same_up_to_host (w1 w2 : world) : Prop :=
  LAST_BYTE w1 = LAST_BYTE w2 /\ ENABLE w1 = ENABLE w2
  /\ REPEAT_RATE w1 = REPEAT_RATE w2 /\ REPEAT_DELAY w1 = REPEAT_DELAY w2
  /\ ELAPSED_TIME w1 = ELAPSED_TIME w2 /\ keyStamps w1 = keyStamps w2
  /\ CAPS_LED w1 = CAPS_LED w2
  /\ Forall2 low8_agree (host w1) (host w2).

(** No position with a zero table entry has a nonzero stamp. *)
Definition unpopulated_released (w : world) : Prop :=
  forall i j, code_at i j = 0 -> Matrix.get (keyStamps w) i j = 0.

(** An operation other than a pressed reading at such a position. *)
Definition quiet (o : op) : bool :=
  match o with
  | Scan i j _ pressed => negb (code_at i j =? 0) || negb pressed
  | _ => true
  end.

(** The states a run passes through: the tick stays below 128 and the
    stamps keep the shape of the array. *)
Definition sane (w : world) : Prop :=
  0 <= ELAPSED_TIME w < 128 /\ Matrix.shaped (keyStamps w).

(** ** The cases of one cell visit *)

(** What a visit of cell [(i, j)] in state [w] can emit and store. *)
Inductive outcome (i j : nat) (w : world) :
    bool -> list event -> list (list Z) -> Prop :=
  | visit_idle pressed :
      outcome i j w pressed [] (keyStamps w)
  | visit_make :
      Matrix.get (keyStamps w) i j = 0 ->
      outcome i j w true (make_sequence (code_at i j))
        (Matrix.set (keyStamps w) i j (ELAPSED_TIME w mod 256))
  | visit_hold :
      Matrix.get (keyStamps w) i j <> 0 ->
      outcome i j w true []
        (Matrix.set (keyStamps w) i j
           (Z.lor (Matrix.get (keyStamps w) i j) 0x80 mod 256))
  | visit_repeat :
      Matrix.get (keyStamps w) i j <> 0 ->
      outcome i j w true (make_sequence (code_at i j))
        (Matrix.set
           (Matrix.set (keyStamps w) i j
              (Z.lor (Matrix.get (keyStamps w) i j) 0x80 mod 256))
           i j (Z.lor 0x80 (ELAPSED_TIME w) mod 256))
  | visit_break :
      Matrix.get (keyStamps w) i j <> 0 ->
      outcome i j w false (break_sequence (code_at i j))
        (Matrix.set (keyStamps w) i j 0).

(** ** Vocabulary of the further properties *)

(** A byte packed the way the table and the [#define]s pack it: the
    stop bit at bit 9 and the odd-parity bit at bit 8. *)
Definition packed (b : Z) : Z :=
  0x200 + (if odd_parity (byte_bits 8 b) then 0x100 else 0) + b.

(** The commands whose case calls [receive] for an argument. *)
Definition takes_argument (c : Z) : bool :=
  existsb (Z.eqb c) [0xed; 0xf0; 0xf3; 0xfb; 0xfc; 0xfd].

(** The values the source ever assigns to the configuration. *)
Definition valid_config (w : world) : Prop :=
  (ENABLE w = 0 \/ ENABLE w = 1)
  /\ In (REPEAT_RATE w) [3; 6; 12; 25; 50]
  /\ In (REPEAT_DELAY w) [25; 50; 75; 100].

(** [LAST_BYTE] after a routine is the code of the last frame it
    transmitted, and is untouched when it transmitted none. *)
Definition tracks {A} (w : world) (r : result A) : Prop :=
  match last (frames (out r)) with
  | Some f => f = frame_bits (LAST_BYTE (post r))
  | None => LAST_BYTE (post r) = LAST_BYTE w
  end.

(** Traces in which every frame is followed at once by a delay of
    BREAK microseconds. *)
Inductive paced : list event -> Prop :=
  | paced_nil : paced []
  | paced_frame bits evs : paced evs -> paced (Tx bits :: Delay BREAK :: evs).

(** The transition of one key at a visit that is carried out, read off
    the branches of [scan_cell]: the stamp it leaves and the key state
    passed to [sendCode], if any. *)
Definition cell_next (s t delay rate : Z) (pressed : bool) : Z * option bool :=
  if pressed then
    if s =? 0 then (t mod 256, Some true)
    else if repeat_due s t delay then
      let s1 := Z.lor s 0x80 mod 256 in
      if (Z.rem t rate =? 0) && negb (Z.land s1 0x7f =? t)
      then (Z.lor 0x80 t mod 256, Some true)
      else (s1, None)
    else (s, None)
  else if negb (s =? 0) then (0, Some false) else (s, None).

Definition sent_sequence (code : Z) (sent : option bool) : list event :=
  match sent with
  | Some true => make_sequence code
  | Some false => break_sequence code
  | None => []
  end.

(** Every stamp fits the [unsigned char] it is stored in. *)
Definition stamps_bytes (w : world) : Prop :=
  Forall (Forall (fun s => 0 <= s < 256)) (keyStamps w).

(** A 16-bit [int] after an addition that wraps. *)
Definition int16 (x : Z) : Z := (x + 32768) mod 65536 - 32768.

(** The bytes [delay_us] loads into TL0 and TH0 (with [CLOCK == 24]):
    [us += us; pause = 0xffff - us; TL0 = pause & 0xff; TH0 = pause >> 8]. *)
Definition delay_us_reload (us : Z) : Z * Z :=
  let us := int16 (us + us) in
  let pause := (0xffff - us) mod 65536 in
  (Z.land pause 0xff, Z.shiftr pause 8).

(** The cells a sequence of operations visits, in order. *)
Fixpoint visited (ops : list op) : list (nat * nat) :=
  match ops with
  | [] => []
  | Scan i j _ _ :: ops' => (i, j) :: visited ops'
  | _ :: ops' => visited ops'
  end.

(** The cells whose key is looked at: the visits that read CLOCK high. *)
Fixpoint examined (ops : list op) : list (nat * nat) :=
  match ops with
  | [] => []
  | Scan i j true _ :: ops' => (i, j) :: examined ops'
  | _ :: ops' => examined ops'
  end.

(** The operations of the visit of one cell at which CLOCK reads [clk]. *)
Definition visit_ops (read : nat -> nat -> reading) (clk : bool)
    (c : nat * nat) : list op :=
  replicate (ticks (read c.1 c.2)) Tick ++ [Scan c.1 c.2 clk (row (read c.1 c.2))].

(** * Properties *)

(** ** Arithmetic helpers *)

Lemma low_byte_uint (c : Z) : Z.land (c mod 65536) 0xff = Z.land c 0xff.
Proof.
  change 65536 with (2 ^ 16). change 0xff with (Z.ones 8).
  rewrite !Z.land_ones by lia.
  apply Z.mod_mod_divide. exists (2 ^ 8). reflexivity.
Qed.

(** A boolean property checked on every number below [n] holds for all
    of them. *)
Lemma below_forallb (P : Z -> bool) (n : nat) :
  forallb P (map Z.of_nat (seq 0 n)) = true ->
  forall x, 0 <= x < Z.of_nat n -> P x = true.
Proof.
  intros H x Hx. rewrite forallb_forall in H. apply H.
  apply in_map_iff. exists (Z.to_nat x). split; [lia|].
  apply in_seq. lia.
Qed.

(** The frames the source writes as constants are the frames of their
    low bytes. *)
Lemma constants_framed :
  map frame_bits [EXT; REL; ACK; RE; 0x03ee; 0x0341; 0x02ab; 0x0283; 0x03aa]
  = map frame [0xE0; 0xF0; 0xFA; 0xFE; 0xEE; 0x41; 0xAB; 0x83; 0xAA].
Proof. reflexivity. Qed.

(** Whatever its argument, [transmit] clocks out eleven bits, the first
    of them 0: the start bit comes from the shift, not from the table. *)
Lemma frame_bits_start (keycode : Z) :
  length (frame_bits keycode) = 11%nat /\ nth 0 (frame_bits keycode) true = false.
Proof.
  split; [reflexivity|].
  unfold frame_bits. cbn [transmit_loop nth].
  change 65536 with (2 ^ 16).
  rewrite Z.mod_pow2_bits_low by lia.
  apply Z.shiftl_spec_low. lia.
Qed.

(** ** Proof automation *)

(** Case analysis on the value a [switch] on a byte compares. *)
Ltac by_command c :=
  let p := fresh "p" in
  destruct c as [|p|p]; [ | do 8 (try destruct p as [p|p|]) | ].

(** Running the monadic primitives on an explicit state. *)
Ltac exec :=
  cbv beta iota zeta delta
    [bind ret get modify emit delay_us transmit receive out post val
     LAST_BYTE ENABLE REPEAT_RATE REPEAT_DELAY ELAPSED_TIME keyStamps CAPS_LED
     host set_LAST_BYTE set_ENABLE set_REPEAT_RATE set_REPEAT_DELAY
     set_ELAPSED_TIME set_keyStamps set_CAPS_LED set_host].

Ltac split_ifs :=
  repeat match goal with
         | |- context [if ?b then _ else _] => destruct b
         end.

(** ** The command interpreter *)

Lemma followCommand_low_byte (command : Z) :
  followCommand command = followCommand (Z.land command 0xff).
Proof.
  unfold followCommand. rewrite !low_byte_uint.
  rewrite <- Z.land_assoc. reflexivity.
Qed.

(** The reply to 0xFE in any state: the ACK, and the ACK again. *)
Lemma resend_out (w : world) :
  out (followCommand 0xfe w) = [Tx (frame 0xFA); Tx (frame 0xFA)]
  /\ LAST_BYTE (post (followCommand 0xfe w)) = ACK.
Proof. split; reflexivity. Qed.

(** C7: for every command byte the first reply frame is ACK (0xFA),
    except that 0xEE is answered by the single frame 0xEE and a byte
    without a case by the single frame 0xFE. *)
Theorem reply_shape (command : Z) (w : world) :
  let c := Z.land command 0xff in
  let fs := frames (out (followCommand command w)) in
  if c =? 0xee then fs = [frame 0xEE]
  else if known_command c then hd_error fs = Some (frame 0xFA)
  else fs = [frame 0xFE].
Proof.
  cbv zeta. unfold followCommand. rewrite low_byte_uint.
  generalize (Z.land command 0xff). intros c.
  by_command c; try reflexivity.
  all: cbn; destruct (host w); reflexivity.
Qed.

Lemma followCommand_keyStamps (command : Z) (w : world) :
  keyStamps (post (followCommand command w)) = keyStamps w
  /\ ELAPSED_TIME (post (followCommand command w)) = ELAPSED_TIME w.
Proof.
  unfold followCommand. generalize (Z.land (command mod 65536) 0xff). intros c.
  by_command c; try (split; reflexivity).
  all: destruct w as [lb en rr rd et ks led [|samples rest]]; exec;
    try (split; reflexivity).
  all: split_ifs; split; reflexivity.
Qed.

(** C1 (the code departs from the claim): after the make code of A
    (0x1C) has been sent, the command 0xFE is answered by ACK and a
    second ACK.  [transmit(ACK)] has overwritten [LAST_BYTE] before it
    is read, so the byte sent before the command is not repeated. *)
Theorem resend_repeats_ack :
  let w := post (run [Tick; Scan 1 2 true true] boot) in
  let r := run [Serve] (set_host [host_frame 0xFE] w) in
  LAST_BYTE w = 0x021c
  /\ frames (out (run [Tick; Scan 1 2 true true] boot)) = [frame 0x1C]
  /\ frames (out r) = [frame 0xFA; frame 0xFA]
  /\ frames (out r) <> [frame 0xFA; frame 0x1C].
Proof. vm_compute. repeat split; congruence. Qed.

(** C6, as stated, fails: after Disable and Set-typematic 0x00 the
    configuration is (0, 3, 25), and the command 0xFF leaves it there
    instead of restoring the boot values (1, 50, 100). *)
Lemma reset_keeps_configuration :
  let sent := [host_frame 0xF5; host_frame 0xF3; host_frame 0x00] in
  let w := post (run [Serve; Serve] (set_host sent boot)) in
  let r := followCommand 0xff w in
  (ENABLE (post r), REPEAT_RATE (post r), REPEAT_DELAY (post r)) = (0, 3, 25)
  /\ (ENABLE boot, REPEAT_RATE boot, REPEAT_DELAY boot) = (1, 50, 100).
Proof. vm_compute. split; reflexivity. Qed.

(** C6, amended: the command 0xFF is answered by ACK, a delay of BREAK
    microseconds and 0xAA; it returns, and changes nothing in the state
    but [LAST_BYTE]: [ENABLE], [REPEAT_RATE] and [REPEAT_DELAY] keep
    their values. *)
Theorem reset_reply (command : Z) (w : world) :
  Z.land command 0xff = 0xff ->
  let r := followCommand command w in
  out r = [Tx (frame 0xFA); Delay BREAK; Tx (frame 0xAA)]
  /\ gaps (out r) = [BREAK]
  /\ val r = Some tt
  /\ post r = set_LAST_BYTE 0x03aa w.
Proof.
  intros H. rewrite followCommand_low_byte, H. repeat split.
Qed.

Lemma reset_reply_witness :
  out (followCommand 0x3ff boot) = [Tx (frame 0xFA); Delay BREAK; Tx (frame 0xAA)].
Proof. apply (reset_reply 0x3ff boot). reflexivity. Defined.

(** C9, as stated, fails: in the reply to 0xF2 not every pair of
    successive frames is BREAK microseconds apart. *)
Lemma read_id_gap_counterexample :
  ~ Forall (fun d => BREAK <= d) (gaps (out (followCommand 0xf2 boot))).
Proof.
  intros H. apply Forall_cons in H as [H _]. vm_compute in H. apply H. reflexivity.
Qed.

(** C9, amended: the command 0xF2 is answered by exactly the frames
    0xFA, 0xAB, 0x83; 0xAB follows the ACK with no delay between them,
    and BREAK microseconds separate 0xAB from 0x83. *)
Theorem read_id_reply (command : Z) (w : world) :
  Z.land command 0xff = 0xf2 ->
  let r := followCommand command w in
  out r = [Tx (frame 0xFA); Tx (frame 0xAB); Delay BREAK; Tx (frame 0x83)]
  /\ gaps (out r) = [0; BREAK]
  /\ val r = Some tt.
Proof.
  intros H. rewrite followCommand_low_byte, H. repeat split.
Qed.

Lemma read_id_reply_witness :
  frames (out (followCommand 0x2f2 boot)) = [frame 0xFA; frame 0xAB; frame 0x83]
  /\ gaps (out (followCommand 0x2f2 boot)) = [0; BREAK].
Proof.
  destruct (read_id_reply 0x2f2 boot) as (Ho & Hg & _); [reflexivity|].
  rewrite Ho. split; reflexivity.
Defined.

Lemma low8_land (a1 a2 m : Z) :
  Z.land a1 0xff = Z.land a2 0xff -> Z.land 0xff m = m ->
  Z.land a1 m = Z.land a2 m.
Proof.
  intros H Hm. rewrite <- Hm, !Z.land_assoc, H. reflexivity.
Qed.




(** C10: two calls of [followCommand] whose commands agree in their low
    eight bits, in states that differ at most above bit 7 of the values
    the host is still to send, emit the same events, return alike and
    leave states that again differ at most there. *)
Theorem low_byte_only (c1 c2 : Z) (w1 w2 : world) :
  Z.land c1 0xff = Z.land c2 0xff ->
  same_up_to_host w1 w2 ->
  let r1 := followCommand c1 w1 in
  let r2 := followCommand c2 w2 in
  out r1 = out r2 /\ val r1 = val r2 /\ same_up_to_host (post r1) (post r2).
Proof.
  intros Hc Hw. cbv zeta.
  rewrite (followCommand_low_byte c1), (followCommand_low_byte c2), Hc.
  unfold followCommand. rewrite low_byte_uint, <- Z.land_assoc.
  change (Z.land 0xff 0xff) with 0xff.
  generalize (Z.land c2 0xff). intros c.
  destruct w1 as [lb1 en1 rr1 rd1 et1 ks1 led1 hs1].
  destruct w2 as [lb2 en2 rr2 rd2 et2 ks2 led2 hs2].
  unfold same_up_to_host in Hw. simpl in Hw.
  destruct Hw as (-> & -> & -> & -> & -> & -> & -> & Hh).
  unfold same_up_to_host.
  by_command c; try (repeat split; assumption).
  all: destruct Hh as [|s1 s2 t1 t2 Hs Ht]; exec;
    try (repeat split; first [assumption | constructor]).
  all: unfold rate_of_arg, delay_of_arg;
    try rewrite (low8_land _ _ 0x04 Hs) by reflexivity;
    try rewrite (low8_land _ _ 0xff Hs) by reflexivity;
    try rewrite (low8_land _ _ 0x1f Hs) by reflexivity;
    try rewrite (low8_land _ _ 0x60 Hs) by reflexivity.
  all: split_ifs; exec; repeat split; first [assumption | constructor].
Qed.

Lemma low_byte_only_witness :
  let w1 := set_host [[true; true; false; false; false; false; false; false; true; true]] boot in
  let w2 := set_host [[true; true; false; false; false; false; false; false; false; false]] boot in
  out (followCommand 0x2f3 w1) = out (followCommand 0xf3 w2).
Proof.
  apply (low_byte_only 0x2f3 0xf3); [reflexivity|].
  repeat split. constructor; [reflexivity | constructor].
Defined.

(** ** The key-stamp array *)

Module MatrixFacts.
Import Matrix.

Lemma get_set_other (m : list (list Z)) (i j i' j' : nat) (v : Z) :
  i <> i' \/ j <> j' -> get (set m i j v) i' j' = get m i' j'.
Proof.
  intros Hne. unfold get, set.
  destruct (m !! i) as [col|] eqn:Hi; [|reflexivity].
  destruct (decide (i = i')) as [<-|Hii].
  - rewrite list_lookup_insert_eq by (eapply lookup_lt_Some; eassumption).
    rewrite Hi. rewrite list_lookup_insert_ne by tauto. reflexivity.
  - rewrite list_lookup_insert_ne by assumption. reflexivity.
Qed.

Lemma get_set_same (m : list (list Z)) (i j : nat) (v : Z) :
  get m i j <> 0 -> get (set m i j v) i j = v.
Proof.
  unfold get, set. intros Hs.
  destruct (m !! i) as [col|] eqn:Hi; [|congruence].
  rewrite list_lookup_insert_eq by (eapply lookup_lt_Some; eassumption).
  destruct (col !! j) as [x|] eqn:Hj; [|simpl in Hs; congruence].
  rewrite list_lookup_insert_eq by (eapply lookup_lt_Some; eassumption).
  reflexivity.
Qed.

Lemma get_set_zero (m : list (list Z)) (i j : nat) :
  get (set m i j 0) i j = 0.
Proof.
  unfold get, set.
  destruct (m !! i) as [col|] eqn:Hi; [|rewrite Hi; reflexivity].
  rewrite list_lookup_insert_eq by (eapply lookup_lt_Some; eassumption).
  destruct (decide (j < length col)%nat) as [Hj|Hj].
  - rewrite list_lookup_insert_eq by assumption. reflexivity.
  - rewrite list_insert_ge by lia.
    rewrite (lookup_ge_None_2 col j) by lia. reflexivity.
Qed.

Lemma get_zeros (i j : nat) : get zeros i j = 0.
Proof.
  unfold get, zeros.
  destruct (replicate 14 (replicate 6 0) !! i) as [col|] eqn:Hi; [|reflexivity].
  apply lookup_replicate in Hi as [-> _].
  destruct (replicate 6 0 !! j) as [x|] eqn:Hj; [|reflexivity].
  apply lookup_replicate in Hj as [-> _]. reflexivity.
Qed.

Lemma zeros_shaped : shaped zeros.
Proof. split; [reflexivity | repeat constructor]. Qed.

Lemma set_shaped (m : list (list Z)) (i j : nat) (v : Z) :
  shaped m -> shaped (set m i j v).
Proof.
  intros [Hlen Hcols]. unfold set.
  destruct (m !! i) as [col|] eqn:Hi; [|split; assumption].
  split; [rewrite length_insert; exact Hlen|].
  apply Forall_insert; [exact Hcols|].
  rewrite length_insert. apply (Forall_lookup_1 _ _ _ _ Hcols Hi).
Qed.

Lemma get_set_in_range (m : list (list Z)) (i j : nat) (v : Z) :
  shaped m -> (i < 14)%nat -> (j < 6)%nat -> get (set m i j v) i j = v.
Proof.
  intros [Hlen Hcols] Hi Hj. unfold get, set.
  destruct (lookup_lt_is_Some_2 m i) as [col Hcol]; [lia|].
  rewrite Hcol.
  rewrite list_lookup_insert_eq by lia.
  pose proof (Forall_lookup_1 _ _ _ _ Hcols Hcol) as Hc. cbv beta in Hc.
  rewrite list_lookup_insert_eq by lia. reflexivity.
Qed.

End MatrixFacts.

(** ** Scan-code emission *)

Lemma sendCode_spec (code : Z) (keyState : bool) (w : world) :
  out (sendCode code keyState w)
  = (if keyState then make_sequence code else break_sequence code)
  /\ post (sendCode code keyState w) = set_LAST_BYTE (code mod 65536) w
  /\ val (sendCode code keyState w) = Some tt.
Proof.
  unfold sendCode, make_sequence, break_sequence, extended.
  destruct keyState, (Z.land code 0xff0000 =? 0xe00000); repeat split.
Qed.

Lemma make_not_break (code : Z) : make_sequence code <> break_sequence code.
Proof.
  unfold make_sequence, break_sequence. intros H.
  apply (f_equal length) in H. destruct (extended code); simpl in H; lia.
Qed.

Lemma make_not_nil (code : Z) : make_sequence code <> [].
Proof. unfold make_sequence. destruct (extended code); discriminate. Qed.

Lemma break_not_nil (code : Z) : break_sequence code <> [].
Proof. unfold break_sequence. destruct (extended code); discriminate. Qed.

(** Scenario S1 over whole sweeps: A is down during one sweep and up
    during the next, one tick later. *)
Example two_sweeps_A :
  let down := fun i j => Reading 0 true (bool_decide (i = 1%nat) && bool_decide (j = 2%nat)) in
  let up := fun i j => Reading 0 true false in
  frames (out (run ([Tick] ++ main_round true true down ++ [Tick]
                    ++ main_round true true up) boot))
  = [frame 0x1C; frame 0xF0; frame 0x1C].
Proof. vm_compute. reflexivity. Qed.

(** The scenarios S1 and S2 of the specification: A at (1, 2) and
    Right-Alt at (9, 0), pressed for one visit and released at the next. *)
Example press_release_A :
  frames (out (run [Tick; Scan 1 2 true true; Scan 1 2 true false] boot))
  = [frame 0x1C; frame 0xF0; frame 0x1C].
Proof. reflexivity. Qed.

Example press_release_right_alt :
  frames (out (run [Tick; Scan 9 0 true true; Scan 9 0 true false] boot))
  = [frame 0xE0; frame 0x11; frame 0xE0; frame 0xF0; frame 0x11].
Proof. reflexivity. Qed.

(** ** One cell visit *)

Ltac exec_sendCode :=
  match goal with
  | |- context [sendCode ?c ?k ?w'] =>
      let Ho := fresh "Ho" in
      let Hp := fresh "Hp" in
      let Hv := fresh "Hv" in
      let o := fresh "o" in
      let p := fresh "p" in
      let v := fresh "v" in
      destruct (sendCode_spec c k w') as (Ho & Hp & Hv);
      destruct (sendCode c k w') as [o p v];
      simpl in Ho, Hp, Hv; subst o p v; exec
  end.

Lemma scan_outcome (i j : nat) (clk pressed : bool) (w : world) :
  let r := step (Scan i j clk pressed) w in
  val r = Some tt
  /\ outcome i j w pressed (out r) (keyStamps (post r))
  /\ ELAPSED_TIME (post r) = ELAPSED_TIME w.
Proof.
  cbv zeta. unfold step, scan_cell, stamp_at, set_stamp.
  destruct w as [lb en rr rd et ks led hs]. exec.
  destruct (en =? 0); [repeat split; constructor|].
  destruct clk; [|repeat split; constructor].
  cbv beta iota zeta delta [negb].
  destruct pressed.
  - destruct (Matrix.get ks i j =? 0) eqn:Hs.
    + apply Z.eqb_eq in Hs. exec_sendCode. rewrite app_nil_r.
      repeat split. apply (visit_make i j (World lb en rr rd et ks led hs)). exact Hs.
    + apply Z.eqb_neq in Hs.
      destruct (repeat_due (Matrix.get ks i j) et rd); [|repeat split; constructor].
      match goal with
      | |- context [if ?b then _ else _] => destruct b
      end.
      * exec_sendCode.
        repeat split. apply (visit_repeat i j (World lb en rr rd et ks led hs)). exact Hs.
      * repeat split.
        apply (visit_hold i j (World lb en rr rd et ks led hs)). exact Hs.
  - destruct (Matrix.get ks i j =? 0) eqn:Hs; [repeat split; constructor|].
    apply Z.eqb_neq in Hs. cbv beta iota zeta delta [negb].
    exec_sendCode. rewrite app_nil_r.
    repeat split. apply (visit_break i j (World lb en rr rd et ks led hs)). exact Hs.
Qed.

Lemma lor_bit7_l (s : Z) : Z.lor s 0x80 mod 256 <> 0.
Proof.
  intros H. apply (f_equal (fun x => Z.testbit x 7)) in H.
  change 256 with (2 ^ 8) in H.
  rewrite Z.mod_pow2_bits_low, Z.lor_spec in H by lia.
  rewrite orb_true_r in H. discriminate.
Qed.

Lemma lor_bit7_r (t : Z) : Z.lor 0x80 t mod 256 <> 0.
Proof. rewrite Z.lor_comm. apply lor_bit7_l. Qed.

Lemma timer2Int_spec (w : world) :
  val (timer2Int w) = Some tt
  /\ out (timer2Int w) = []
  /\ keyStamps (post (timer2Int w)) = keyStamps w
  /\ 0 <= ELAPSED_TIME (post (timer2Int w)) < 128.
Proof.
  unfold timer2Int. destruct w as [lb en rr rd et ks led hs]. exec.
  destruct ((et + 1) mod 256 >? 127) eqn:Hlt; exec; repeat split; try lia.
  apply Z.mod_pos_bound. lia.
Qed.

Lemma serve_keyStamps (w : world) :
  keyStamps (post (serve w)) = keyStamps w
  /\ ELAPSED_TIME (post (serve w)) = ELAPSED_TIME w.
Proof.
  unfold serve, bind, receive.
  destruct (host w) as [|samples rest]; [split; reflexivity|].
  cbn [val post out].
  apply (followCommand_keyStamps (rx_value samples) (set_host rest w)).
Qed.

Lemma visits_true (i j : nat) (o : op) :
  visits i j o = true -> exists clk pressed, o = Scan i j clk pressed.
Proof.
  destruct o as [|i' j' clk pressed|]; simpl; try discriminate.
  intros H. apply andb_true_iff in H as [Hi Hj].
  apply bool_decide_eq_true in Hi, Hj. subst. eauto.
Qed.

(** An operation that does not visit a cell leaves its stamp alone. *)
Lemma step_stamp_other (i j : nat) (o : op) (w : world) :
  visits i j o = false ->
  Matrix.get (keyStamps (post (step o w))) i j = Matrix.get (keyStamps w) i j.
Proof.
  destruct o as [|i' j' clk pressed|]; intros Hv.
  - cbn [step]. destruct (timer2Int_spec w) as (_ & _ & -> & _). reflexivity.
  - simpl in Hv. apply andb_false_iff in Hv.
    assert (Hne : i' <> i \/ j' <> j).
    { destruct Hv as [Hv|Hv]; apply bool_decide_eq_false in Hv; tauto. }
    destruct (scan_outcome i' j' clk pressed w) as (_ & Ho & _).
    destruct Ho; rewrite ?MatrixFacts.get_set_other by assumption; reflexivity.
  - cbn [step]. rewrite (proj1 (serve_keyStamps w)). reflexivity.
Qed.

Lemma stamp_held (s : Z) : ((if (s =? 0)%Z then 0 else 1) <= 1)%nat.
Proof. destruct (s =? 0); lia. Qed.

Lemma decide_make_make (c : Z) :
  bool_decide (make_sequence c = make_sequence c) = true.
Proof. apply bool_decide_eq_true_2. reflexivity. Qed.

Lemma decide_break_break (c : Z) :
  bool_decide (break_sequence c = break_sequence c) = true.
Proof. apply bool_decide_eq_true_2. reflexivity. Qed.

Lemma decide_make_break (c : Z) :
  bool_decide (make_sequence c = break_sequence c) = false.
Proof. apply bool_decide_eq_false_2, make_not_break. Qed.

Lemma decide_break_make (c : Z) :
  bool_decide (break_sequence c = make_sequence c) = false.
Proof.
  apply bool_decide_eq_false_2. intros E. symmetry in E. revert E.
  apply make_not_break.
Qed.

Lemma decide_nil_make (c : Z) : bool_decide ([] = make_sequence c) = false.
Proof.
  apply bool_decide_eq_false_2. intros E. symmetry in E. revert E.
  apply make_not_nil.
Qed.

Lemma decide_nil_break (c : Z) : bool_decide ([] = break_sequence c) = false.
Proof.
  apply bool_decide_eq_false_2. intros E. symmetry in E. revert E.
  apply break_not_nil.
Qed.

(** One operation keeps the balance of breaks against makes. *)
Lemma step_balance (i j : nat) (o : op) (w : world) :
  let e := Entry o w (out (step o w)) in
  (tally (is_break i j) e + held (post (step o w)) i j
   <= tally (is_make i j) e + held w i j)%nat.
Proof.
  unfold tally, is_break, is_make, held. cbn [performed emitted].
  destruct (visits i j o) eqn:Hv.
  - apply visits_true in Hv as (clk & pressed & ->).
    destruct (scan_outcome i j clk pressed w) as (_ & Ho & _).
    destruct Ho as [p | Hs | Hs | Hs | Hs]; cbn [andb];
      rewrite ?decide_nil_make, ?decide_nil_break, ?decide_make_make,
        ?decide_break_break, ?decide_make_break, ?decide_break_make;
      try rewrite (proj2 (Z.eqb_neq _ _) Hs);
      rewrite ?MatrixFacts.get_set_zero;
      try match goal with
          | |- context [Matrix.get (Matrix.set ?m ?a ?b ?v) ?a ?b =? 0] =>
              pose proof (stamp_held (Matrix.get (Matrix.set m a b v) a b))
          end;
      cbn; lia.
  - cbn [andb]. rewrite (step_stamp_other i j o w Hv). lia.
Qed.

Lemma run_cons (o : op) (ops : list op) (w : world) :
  run (o :: ops) w
  = match val (step o w) with
    | Some _ =>
        Result (out (step o w) ++ out (run ops (post (step o w))))
               (post (run ops (post (step o w))))
               (val (run ops (post (step o w))))
    | None => Result (out (step o w)) (post (step o w)) None
    end.
Proof. cbn [run]. unfold bind. destruct (val (step o w)); reflexivity. Qed.

Lemma balance_from (i j : nat) (ops : list op) :
  forall w,
    (breaks i j (trace_of ops w) + held (post (run ops w)) i j
     <= makes i j (trace_of ops w) + held w i j)%nat.
Proof.
  unfold breaks, makes.
  induction ops as [|o ops IH]; intros w.
  - cbn. lia.
  - rewrite run_cons. cbn [trace_of count].
    pose proof (step_balance i j o w) as Hstep. cbv zeta in Hstep.
    destruct (val (step o w)).
    + cbn [post]. specialize (IH (post (step o w))). lia.
    + cbn [post count]. lia.
Qed.

(** Every make is a first make or a typematic repeat. *)
Lemma makes_split (i j : nat) (tr : list entry) :
  makes i j tr = (first_makes i j tr + repeats i j tr)%nat.
Proof.
  unfold makes, first_makes, repeats.
  induction tr as [|e tr IH]; [reflexivity|].
  cbn [count]. rewrite IH. unfold tally, is_first_make, is_repeat.
  destruct (is_make i j e), (released_before i j e); cbn; lia.
Qed.

Lemma step_sane (o : op) (w : world) : sane w -> sane (post (step o w)).
Proof.
  intros [Ht Hk]. destruct o as [|i j clk pressed|].
  - cbn [step]. destruct (timer2Int_spec w) as (_ & _ & Hks & Hr).
    split; [exact Hr | rewrite Hks; exact Hk].
  - destruct (scan_outcome i j clk pressed w) as (_ & Ho & He).
    split; [rewrite He; exact Ht|].
    destruct Ho; repeat apply MatrixFacts.set_shaped; exact Hk.
  - cbn [step]. destruct (serve_keyStamps w) as [Hks He].
    split; [rewrite He; exact Ht | rewrite Hks; exact Hk].
Qed.

(** One operation, first makes against breaks: exact, when the press is
    not recorded at tick 0. *)
Lemma step_exact (i j : nat) (o : op) (w : world) :
  (i < 14)%nat -> (j < 6)%nat -> sane w ->
  let e := Entry o w (out (step o w)) in
  (is_first_make i j e = true -> ELAPSED_TIME w <> 0) ->
  (tally (is_first_make i j) e + held w i j
   = tally (is_break i j) e + held (post (step o w)) i j)%nat.
Proof.
  intros Hi Hj [Ht Hk]. cbv zeta.
  unfold tally, is_first_make, is_break, is_make, released_before, held.
  cbn [performed emitted before].
  destruct (visits i j o) eqn:Hv.
  - apply visits_true in Hv as (clk & pressed & ->).
    destruct (scan_outcome i j clk pressed w) as (_ & Ho & _).
    destruct Ho as [p | Hs | Hs | Hs | Hs]; cbn [andb];
      rewrite ?decide_nil_make, ?decide_nil_break, ?decide_make_make,
        ?decide_break_break, ?decide_make_break, ?decide_break_make;
      cbn [andb]; intros Hfirst.
    + destruct (_ =? 0); reflexivity.
    + rewrite Hs in *. cbn [Z.eqb] in *.
      rewrite MatrixFacts.get_set_in_range by assumption.
      rewrite Z.mod_small by lia.
      rewrite (proj2 (Z.eqb_neq _ _) (Hfirst eq_refl)). reflexivity.
    + rewrite (proj2 (Z.eqb_neq _ _) Hs).
      rewrite MatrixFacts.get_set_same by assumption.
      rewrite (proj2 (Z.eqb_neq _ _) (lor_bit7_l _)). reflexivity.
    + rewrite (proj2 (Z.eqb_neq _ _) Hs).
      rewrite MatrixFacts.get_set_same.
      * rewrite (proj2 (Z.eqb_neq _ _) (lor_bit7_r _)). reflexivity.
      * rewrite MatrixFacts.get_set_same by assumption. apply lor_bit7_l.
    + rewrite (proj2 (Z.eqb_neq _ _) Hs), MatrixFacts.get_set_zero.
      reflexivity.
  - cbn [andb]. intros _. rewrite (step_stamp_other i j o w Hv). reflexivity.
Qed.

Lemma exact_from (i j : nat) (ops : list op) :
  (i < 14)%nat -> (j < 6)%nat ->
  forall w,
    sane w ->
    (forall e, In e (trace_of ops w) ->
               is_first_make i j e = true -> ELAPSED_TIME (before e) <> 0) ->
    (first_makes i j (trace_of ops w) + held w i j
     = breaks i j (trace_of ops w) + held (post (run ops w)) i j)%nat.
Proof.
  intros Hi Hj. unfold first_makes, breaks.
  induction ops as [|o ops IH]; intros w Hsane Htick.
  - reflexivity.
  - rewrite run_cons. cbn [trace_of count] in *.
    pose proof (step_exact i j o w Hi Hj Hsane) as Hstep. cbv zeta in Hstep.
    assert (H0 : (tally (is_first_make i j) (Entry o w (out (step o w)))
                  + held w i j
                  = tally (is_break i j) (Entry o w (out (step o w)))
                    + held (post (step o w)) i j)%nat).
    { apply Hstep. intros Hf. apply (Htick _ (or_introl eq_refl) Hf). }
    destruct (val (step o w)).
    + cbn [post].
      assert (IH' := IH (post (step o w)) (step_sane o w Hsane)
                        (fun e Hin => Htick e (or_intror Hin))).
      lia.
    + cbn [post count]. lia.
Qed.

Lemma to_zero_is_break (i j : nat) (o : op) (w : world) :
  Matrix.get (keyStamps w) i j <> 0 ->
  Matrix.get (keyStamps (post (step o w))) i j = 0 ->
  out (step o w) = break_sequence (code_at i j)
  /\ exists clk, o = Scan i j clk false.
Proof.
  intros Hs.
  destruct (visits i j o) eqn:Hv.
  - apply visits_true in Hv as (clk & pressed & ->).
    destruct (scan_outcome i j clk pressed w) as (_ & Ho & _).
    destruct Ho as [p | Hs0 | Hs0 | Hs0 | Hs0]; intros Hz; try contradiction.
    + rewrite MatrixFacts.get_set_same in Hz by assumption.
      exfalso. revert Hz. apply lor_bit7_l.
    + rewrite MatrixFacts.get_set_same in Hz.
      * exfalso. revert Hz. apply lor_bit7_r.
      * rewrite MatrixFacts.get_set_same by assumption. apply lor_bit7_l.
    + split; [reflexivity | eauto].
  - rewrite (step_stamp_other i j o w Hv). intros Hz. contradiction.
Qed.

(** A press recorded while the tick is 0 stores the stamp 0, which is
    the released state: the release that follows emits no break, and a
    key still down at the next visit gets a new first make. *)
Example press_at_tick_zero :
  let tr := trace_of [Scan 1 2 true true; Tick; Scan 1 2 true false] boot in
  first_makes 1 2 tr = 1%nat /\ breaks 1 2 tr = 0%nat
  /\ held (post (run [Scan 1 2 true true] boot)) 1 2 = 0%nat.
Proof. vm_compute. repeat split. Qed.

(** C4, as stated, fails: a key held across the repeat delay gets a
    second make from the typematic repeat, so two makes stand against
    no break and one pressed key. *)
Lemma typematic_breaks_balance :
  let ops := [Tick; Scan 1 2 true true] ++ replicate 127 Tick ++ [Scan 1 2 true true] in
  let tr := trace_of ops boot in
  makes 1 2 tr = 2%nat /\ breaks 1 2 tr = 0%nat
  /\ held (post (run ops boot)) 1 2 = 1%nat
  /\ makes 1 2 tr <> (breaks 1 2 tr + held (post (run ops boot)) 1 2)%nat.
Proof. vm_compute. repeat split. discriminate. Qed.

(** C4, amended: in every run from all keys released, the makes emitted
    for a key are its first makes (emitted from the released state) and
    its typematic repeats (emitted while it is held), and they are at
    least its breaks plus one if its state is nonzero; the first makes
    equal the breaks plus one if the state is nonzero, provided no
    press of the key is recorded at tick 0; and an operation that takes
    the state of a key from nonzero to zero emits the break sequence of
    that key. *)
Theorem make_break_balance (i j : nat) (ops : list op) (w : world)
    (o : op) (w0 : world) :
  keyStamps w = Matrix.zeros ->
  let tr := trace_of ops w in
  let w' := post (run ops w) in
  (breaks i j tr + held w' i j <= makes i j tr)%nat
  /\ makes i j tr = (first_makes i j tr + repeats i j tr)%nat
  /\ ((i < 14)%nat -> (j < 6)%nat -> 0 <= ELAPSED_TIME w < 128 ->
      (forall e, In e tr -> is_first_make i j e = true ->
                 ELAPSED_TIME (before e) <> 0) ->
      first_makes i j tr = (breaks i j tr + held w' i j)%nat)
  /\ (Matrix.get (keyStamps w0) i j <> 0 ->
      Matrix.get (keyStamps (post (step o w0))) i j = 0 ->
      out (step o w0) = break_sequence (code_at i j)).
Proof.
  intros Hz. cbv zeta.
  assert (Hheld : held w i j = 0%nat).
  { unfold held. rewrite Hz, MatrixFacts.get_zeros. reflexivity. }
  split; [|split; [|split]].
  - pose proof (balance_from i j ops w) as H. lia.
  - apply makes_split.
  - intros Hi Hj Ht Htick.
    assert (Hsane : sane w).
    { split; [exact Ht | rewrite Hz; apply MatrixFacts.zeros_shaped]. }
    pose proof (exact_from i j ops Hi Hj w Hsane Htick) as H. lia.
  - intros Hs H0. apply (to_zero_is_break i j o w0 Hs H0).
Qed.

Lemma make_break_balance_witness :
  let ops := [Tick; Scan 1 2 true true; Tick; Scan 1 2 true false] in
  first_makes 1 2 (trace_of ops boot)
  = (breaks 1 2 (trace_of ops boot) + held (post (run ops boot)) 1 2)%nat.
Proof.
  cbv zeta.
  destruct (make_break_balance 1 2
              [Tick; Scan 1 2 true true; Tick; Scan 1 2 true false]
              boot Tick boot) as (_ & _ & H & _); [reflexivity|].
  apply H.
  - lia.
  - lia.
  - cbn. lia.
  - intros e [<-|[<-|[<-|[<-|[]]]]]; vm_compute; intros; discriminate.
Defined.

(** ** Zero entries of the scan-code table *)

(** A boolean form of the side condition, for concrete runs. *)
Lemma quiet_sound (ops : list op) :
  forallb quiet ops = true ->
  forall i j clk pressed,
    In (Scan i j clk pressed) ops -> code_at i j = 0 -> pressed = false.
Proof.
  intros H i j clk pressed Hin Hz. rewrite forallb_forall in H.
  specialize (H _ Hin). cbn [quiet] in H. rewrite Hz in H.
  destruct pressed; [discriminate | reflexivity].
Qed.

(** C3, as stated, fails: position (1, 5) has a zero entry, and a
    pressed reading there transmits the all-zero frame and stamps the
    cell. *)
Lemma zero_entry_transmitted :
  code_at 1 5 = 0
  /\ frames (out (run [Tick; Scan 1 5 true true] boot)) = [frame_bits 0]
  /\ Matrix.get (keyStamps (post (run [Tick; Scan 1 5 true true] boot))) 1 5 = 1.
Proof. vm_compute. repeat split. Qed.

Lemma silent_from (i j : nat) (ops : list op) :
  forall w,
    Matrix.get (keyStamps w) i j = 0 ->
    (forall clk pressed, In (Scan i j clk pressed) ops -> pressed = false) ->
    Forall (fun e => visits i j (performed e) = true -> emitted e = []) (trace_of ops w)
    /\ Matrix.get (keyStamps (post (run ops w))) i j = 0.
Proof.
  induction ops as [|o ops IH]; intros w Hz Hrel.
  - split; [constructor | exact Hz].
  - rewrite run_cons. cbn [trace_of].
    assert (Hstep : (visits i j o = true -> out (step o w) = [])
                    /\ Matrix.get (keyStamps (post (step o w))) i j = 0).
    { destruct (visits i j o) eqn:Hv.
      - apply visits_true in Hv as (clk & pressed & ->).
        assert (Hp : pressed = false) by (apply (Hrel clk); left; reflexivity).
        destruct (scan_outcome i j clk pressed w) as (_ & Ho & _).
        revert Hp.
        destruct Ho; intros Hp; try discriminate; try contradiction;
          split; auto.
      - split; [discriminate|]. rewrite (step_stamp_other i j o w Hv). exact Hz. }
    destruct Hstep as [Hout Hpost].
    destruct (val (step o w)).
    + destruct (IH (post (step o w)) Hpost) as [Htr Hend].
      { intros clk pressed Hin. apply (Hrel clk). right. exact Hin. }
      split; [constructor; [exact Hout | exact Htr] | exact Hend].
    + split; [constructor; [exact Hout | constructor] | exact Hpost].
Qed.

(** The two visits that transmit for a key whatever its table entry:
    a pressed reading of a released key sends the make sequence of the
    entry and stamps the cell with the tick, a released reading of a
    stamped key sends the break sequence and clears the cell. *)
Lemma scan_first_make (i j : nat) (w : world) :
  ENABLE w <> 0 ->
  Matrix.get (keyStamps w) i j = 0 ->
  let r := step (Scan i j true true) w in
  out r = make_sequence (code_at i j)
  /\ keyStamps (post r) = Matrix.set (keyStamps w) i j (ELAPSED_TIME w mod 256).
Proof.
  intros Hen Hs. cbv zeta. unfold step, scan_cell, stamp_at, set_stamp.
  destruct w as [lb en rr rd et ks led hs]. cbn [ENABLE keyStamps] in Hen, Hs. exec.
  rewrite (proj2 (Z.eqb_neq en 0) Hen).
  cbv beta iota zeta delta [negb].
  rewrite Hs. cbv beta iota zeta delta [Z.eqb].
  exec_sendCode. rewrite app_nil_r. split; reflexivity.
Qed.

Lemma scan_release (i j : nat) (w : world) :
  ENABLE w <> 0 ->
  Matrix.get (keyStamps w) i j <> 0 ->
  let r := step (Scan i j true false) w in
  out r = break_sequence (code_at i j)
  /\ keyStamps (post r) = Matrix.set (keyStamps w) i j 0.
Proof.
  intros Hen Hs. cbv zeta. unfold step, scan_cell, stamp_at, set_stamp.
  destruct w as [lb en rr rd et ks led hs]. cbn [ENABLE keyStamps] in Hen, Hs. exec.
  rewrite (proj2 (Z.eqb_neq en 0) Hen).
  cbv beta iota zeta delta [negb].
  rewrite (proj2 (Z.eqb_neq _ 0) Hs).
  exec_sendCode. rewrite app_nil_r. split; reflexivity.
Qed.

(** C3, amended: for a position with a zero entry, a run from all keys
    released in which its row never reads pressed emits nothing at its
    visits and leaves its cell zero.  A pressed reading is handled as
    for any other key: at a visit that is carried out (scanner enabled,
    CLOCK high), a pressed reading of the released position transmits
    the zero entry as make, exactly the all-zero frame and its delay,
    and stamps the cell with the tick; a released reading of the
    stamped position transmits the release frame and then the zero
    entry as break, and clears the cell; and no visit, in any state,
    emits anything but nothing, that make or that break. *)
Theorem zero_entry_silent_while_released (i j : nat) (ops : list op) (w : world) :
  code_at i j = 0 ->
  keyStamps w = Matrix.zeros ->
  (forall clk pressed, In (Scan i j clk pressed) ops -> pressed = false) ->
  Forall (fun e => visits i j (performed e) = true -> emitted e = []) (trace_of ops w)
  /\ Matrix.get (keyStamps (post (run ops w))) i j = 0
  /\ (forall w0, ENABLE w0 <> 0 -> Matrix.get (keyStamps w0) i j = 0 ->
        let r := step (Scan i j true true) w0 in
        out r = [Tx (frame_bits 0); Delay BREAK]
        /\ keyStamps (post r)
           = Matrix.set (keyStamps w0) i j (ELAPSED_TIME w0 mod 256))
  /\ (forall w0, ENABLE w0 <> 0 -> Matrix.get (keyStamps w0) i j <> 0 ->
        let r := step (Scan i j true false) w0 in
        out r = [Tx (frame 0xF0); Delay BREAK; Tx (frame_bits 0); Delay BREAK]
        /\ keyStamps (post r) = Matrix.set (keyStamps w0) i j 0)
  /\ (forall clk pressed w0,
        let evs := out (step (Scan i j clk pressed) w0) in
        evs = []
        \/ evs = [Tx (frame_bits 0); Delay BREAK]
        \/ evs = [Tx (frame 0xF0); Delay BREAK; Tx (frame_bits 0); Delay BREAK]).
Proof.
  intros Hcode Hz Hrel.
  destruct (silent_from i j ops w) as [Htr Hend]; [|exact Hrel|].
  { rewrite Hz. apply MatrixFacts.get_zeros. }
  split; [exact Htr|]. split; [exact Hend|].
  split; [|split].
  - intros w0 Hen Hs. cbv zeta.
    destruct (scan_first_make i j w0 Hen Hs) as [Ho Hk].
    rewrite Ho, Hk, Hcode. split; reflexivity.
  - intros w0 Hen Hs. cbv zeta.
    destruct (scan_release i j w0 Hen Hs) as [Ho Hk].
    rewrite Ho, Hk, Hcode. split; reflexivity.
  - intros clk pressed w0. cbv zeta.
    destruct (scan_outcome i j clk pressed w0) as (_ & Ho & _).
    destruct Ho; rewrite ?Hcode; auto.
Qed.

(** A sweep with only A down leaves the unpopulated position (1, 5)
    silent and released; read pressed after a tick it sends the all-zero
    frame and is stamped 1, and read released after that it sends the
    release frame and the all-zero frame and is cleared. *)
Lemma zero_entry_silent_while_released_witness :
  let a_down := fun i j =>
    Reading 0 true (bool_decide (i = 1%nat) && bool_decide (j = 2%nat)) in
  let ops := [Tick] ++ main_round true true a_down in
  let w1 := post (run [Tick] boot) in
  let w2 := post (run [Tick; Scan 1 5 true true] boot) in
  Matrix.get (keyStamps (post (run ops boot))) 1 5 = 0
  /\ (out (step (Scan 1 5 true true) w1) = [Tx (frame_bits 0); Delay BREAK]
      /\ Matrix.get (keyStamps (post (step (Scan 1 5 true true) w1))) 1 5 = 1)
  /\ (out (step (Scan 1 5 true false) w2)
      = [Tx (frame 0xF0); Delay BREAK; Tx (frame_bits 0); Delay BREAK]
      /\ Matrix.get (keyStamps (post (step (Scan 1 5 true false) w2))) 1 5 = 0).
Proof.
  cbv zeta.
  destruct (zero_entry_silent_while_released 1 5
              ([Tick] ++ main_round true true
                 (fun i j => Reading 0 true
                    (bool_decide (i = 1%nat) && bool_decide (j = 2%nat))))
              boot) as (_ & Hend & Hmake & Hbreak & _).
  - reflexivity.
  - reflexivity.
  - intros clk pressed Hin.
    eapply quiet_sound; [|exact Hin|reflexivity].
    vm_compute. reflexivity.
  - split; [exact Hend|]. split.
    + destruct (Hmake (post (run [Tick] boot))) as [Ho Hk];
        [discriminate | reflexivity |].
      split; [exact Ho | rewrite Hk; reflexivity].
    + destruct (Hbreak (post (run [Tick; Scan 1 5 true true] boot))) as [Ho Hk];
        [discriminate | vm_compute; discriminate |].
      split; [exact Ho | rewrite Hk; reflexivity].
Defined.

(** ** Frame well-formedness *)

Lemma frames_app (a b : list event) : frames (a ++ b) = frames a ++ frames b.
Proof.
  induction a as [|e a IH]; [reflexivity|].
  destruct e; cbn [frames app]; rewrite IH; reflexivity.
Qed.

Lemma all_well_formed_app (a b : list event) :
  all_well_formed (a ++ b) = all_well_formed a && all_well_formed b.
Proof. unfold all_well_formed. rewrite frames_app. apply forallb_app. Qed.

(** Every table entry is zero or yields well-formed make and break
    sequences. *)
Lemma table_well_formed (i j : nat) :
  (code_at i j =? 0)
  || (all_well_formed (make_sequence (code_at i j))
      && all_well_formed (break_sequence (code_at i j))) = true.
Proof.
  do 14 (destruct i as [|i]; [do 6 (destruct j as [|j]; [reflexivity|]); reflexivity|]).
  reflexivity.
Qed.

Lemma followCommand_well_formed (command : Z) (w : world) :
  all_well_formed (out (followCommand command w)) = true.
Proof.
  unfold followCommand. generalize (Z.land (command mod 65536) 0xff). intros c.
  by_command c; try reflexivity.
  all: destruct w as [lb en rr rd et ks led [|samples rest]]; exec;
    try reflexivity.
  all: split_ifs; reflexivity.
Qed.

(** One operation emits well-formed frames and leaves the unpopulated
    positions released, when it is not a pressed reading at one of them. *)
Lemma step_well_formed (o : op) (w : world) :
  unpopulated_released w ->
  (forall i j clk pressed,
      o = Scan i j clk pressed -> code_at i j = 0 -> pressed = false) ->
  all_well_formed (out (step o w)) = true
  /\ unpopulated_released (post (step o w)).
Proof.
  intros Hinv Hrel. unfold unpopulated_released.
  destruct o as [|i j clk pressed|].
  - cbn [step]. destruct (timer2Int_spec w) as (_ & -> & Hks & _).
    split; [reflexivity|]. rewrite Hks. exact Hinv.
  - specialize (Hrel i j clk pressed eq_refl).
    destruct (scan_outcome i j clk pressed w) as (_ & Ho & _).
    destruct (Z.eq_dec (code_at i j) 0) as [Hz|Hnz].
    + pose proof (Hinv i j Hz) as Hs. specialize (Hrel Hz). revert Hrel.
      destruct Ho; intros Hrel; try discriminate; try contradiction.
      split; [reflexivity | exact Hinv].
    + pose proof (table_well_formed i j) as Ht.
      apply orb_true_iff in Ht as [Ht|Ht]; [apply Z.eqb_eq in Ht; contradiction|].
      apply andb_true_iff in Ht as [Hm Hb].
      assert (Hkeep : forall m x i' j', code_at i' j' = 0 ->
                Matrix.get (Matrix.set m i j x) i' j' = Matrix.get m i' j').
      { intros m x i' j' Hz. apply MatrixFacts.get_set_other.
        destruct (decide (i = i')) as [<-|]; [|tauto].
        destruct (decide (j = j')) as [<-|]; [contradiction|tauto]. }
      destruct Ho; (split; [first [reflexivity | assumption]|]);
        try exact Hinv; intros i' j' Hz';
        rewrite ?(Hkeep _ _ i' j' Hz'); apply Hinv; exact Hz'.
  - cbn [step]. split.
    + unfold serve, bind, receive.
      destruct (host w) as [|samples rest]; [reflexivity|].
      cbn [val out post]. rewrite all_well_formed_app.
      rewrite followCommand_well_formed. reflexivity.
    + rewrite (proj1 (serve_keyStamps w)). exact Hinv.
Qed.

(** C2, as stated, fails: the zero entry of position (1, 5) is passed to
    the transmitter on a pressed reading, and its frame has stop bit 0
    and even parity. *)
Lemma zero_entry_frame_malformed :
  code_at 1 5 = 0
  /\ frames (out (run [Scan 1 5 true true] boot)) = [frame_bits 0]
  /\ well_formed (frame_bits 0) = false
  /\ nth 10 (frame_bits 0) false = false.
Proof. vm_compute. repeat split. Qed.

(** C2, amended: in every run from all keys released in which no
    position with a zero table entry reads pressed, every frame passed
    to the transmitter - scan-code table entry, protocol constant or
    command reply - has start bit 0, stop bit 1 and odd parity over
    its eight data bits. *)
Theorem emitted_frames_well_formed (ops : list op) (w : world) :
  keyStamps w = Matrix.zeros ->
  (forall i j clk pressed,
      In (Scan i j clk pressed) ops -> code_at i j = 0 -> pressed = false) ->
  Forall (fun bits => well_formed bits = true) (frames (out (run ops w))).
Proof.
  intros Hz Hrel. apply Forall_forall.
  assert (Hinv : unpopulated_released w).
  { intros i j _. rewrite Hz. apply MatrixFacts.get_zeros. }
  clear Hz.
  assert (H : all_well_formed (out (run ops w)) = true).
  { revert w Hinv. induction ops as [|o ops IH]; intros w Hinv; [reflexivity|].
    rewrite run_cons.
    destruct (step_well_formed o w Hinv) as [Ho Hnext].
    { intros i j clk pressed ->. apply (Hrel i j clk). left. reflexivity. }
    destruct (val (step o w)); cbn [out]; [|exact Ho].
    rewrite all_well_formed_app, Ho, IH; [reflexivity| |exact Hnext].
    intros i j clk pressed Hin. apply (Hrel i j clk). right. exact Hin. }
  unfold all_well_formed in H. rewrite forallb_forall in H.
  intros bits Hin. apply H. apply list_elem_of_In. exact Hin.
Qed.

Lemma emitted_frames_well_formed_witness :
  let right_alt_down := fun i j =>
    Reading 0 true (bool_decide (i = 9%nat) && bool_decide (j = 0%nat)) in
  let all_up := fun (i j : nat) => Reading 1 true false in
  let ops := [Tick] ++ main_round true true right_alt_down
             ++ main_round true false all_up ++ main_round true true all_up in
  Forall (fun bits => well_formed bits = true)
    (frames (out (run ops (set_host [host_frame 0xF2] boot)))).
Proof.
  cbv zeta. apply emitted_frames_well_formed.
  - reflexivity.
  - apply quiet_sound. vm_compute. reflexivity.
Defined.

(** ** Elapsed time across the wrap of the tick *)

Lemma wrap_elapsed_short (s t : Z) :
  0 <= t < s -> s < 128 ->
  wrap_elapsed s t = (t - Z.land s 0x7f) mod 128 - 1.
Proof.
  intros Ht Hs.
  assert (Hland : Z.land s 0x7f = s).
  { change 0x7f with (Z.ones 7). rewrite Z.land_ones by lia.
    apply Z.mod_small. change (2 ^ 7) with 128. lia. }
  rewrite Hland. unfold wrap_elapsed.
  rewrite <- (Z.mod_add (t - s) 1 128) by lia.
  rewrite (Z.mod_small (t - s + 1 * 128)) by lia. lia.
Qed.

(** C5 (the code departs from the claim): with REPEAT_DELAY 25, a key
    stamped at tick 110 and visited at tick 7 has been held for
    (7 - 110) mod 128 = 25 ticks, but the scanner compares
    (127 - 110) + 7 = 24 against the delay and keeps the key out of the
    repeating phase: the wrap formula is one tick short of the
    modulo-128 elapsed time. *)
Theorem wrap_elapsed_one_tick_short :
  let ops := [Serve] ++ replicate 110 Tick ++ [Scan 1 2 true true]
             ++ replicate 25 Tick ++ [Scan 1 2 true true] in
  let w := post (run ops (set_host [host_frame 0xF3; host_frame 0x00] boot)) in
  REPEAT_DELAY w = 25
  /\ ELAPSED_TIME w = 7
  /\ Matrix.get (keyStamps w) 1 2 = 110
  /\ (7 - Z.land 110 0x7f) mod 128 = 25
  /\ wrap_elapsed 110 7 = 24
  /\ repeat_due 110 7 25 = false.
Proof. vm_compute. repeat split. Qed.

(** * Further properties of the transceiver *)

Lemma transmit_loop_bits (rounds : nat) :
  forall keycode,
    transmit_loop rounds keycode
    = map (fun k => Z.testbit keycode (Z.of_nat k)) (seq 0 rounds).
Proof.
  induction rounds as [|n IH]; intros keycode; [reflexivity|].
  cbn [transmit_loop seq map]. f_equal.
  rewrite IH, <- seq_shift, map_map.
  apply map_ext. intros k. rewrite Z.shiftr_spec by lia.
  f_equal. lia.
Qed.

Lemma frame_bits_bits (keycode : Z) :
  frame_bits keycode
  = false :: map (fun k => Z.testbit keycode (Z.of_nat k)) (seq 0 10).
Proof.
  unfold frame_bits. rewrite transmit_loop_bits.
  change (seq 0 11) with (0%nat :: seq 1 10).
  cbn [map]. f_equal.
  - change 65536 with (2 ^ 16). rewrite Z.mod_pow2_bits_low by lia.
    apply Z.shiftl_spec_low. lia.
  - rewrite <- seq_shift, map_map. apply map_ext_in.
    intros k Hk. apply in_seq in Hk.
    change 65536 with (2 ^ 16). rewrite Z.mod_pow2_bits_low by lia.
    rewrite Z.shiftl_spec by lia. f_equal. lia.
Qed.

(** Deciding the integer comparisons of a goal. *)
Ltac cmp_cases :=
  repeat match goal with
         | |- context [?a <=? ?b] => destruct (Z.leb_spec a b)
         | |- context [?a <? ?b] => destruct (Z.ltb_spec a b)
         end;
  cbn [andb orb negb]; try reflexivity; try lia.

Lemma receive_loop_testbit (rounds : nat) :
  forall index samples buffer k,
    0 <= index -> 0 <= k ->
    Z.testbit (receive_loop rounds index samples buffer) k
    = Z.testbit buffer k
      || ((index <=? k) && (k <? index + Z.of_nat rounds)
          && nth (Z.to_nat (k - index)) samples false).
Proof.
  induction rounds as [|n IH]; intros index samples buffer k Hi Hk.
  - cbn [receive_loop]. cmp_cases; rewrite orb_false_r; reflexivity.
  - cbn [receive_loop]. rewrite IH by lia.
    rewrite Z.lor_spec, Z.shiftl_spec by lia.
    destruct (Z.eq_dec k index) as [->|Hne].
    + rewrite Z.sub_diag. cmp_cases.
      rewrite orb_false_r. cbn [Z.to_nat nth].
      destruct samples as [|[|] rest]; reflexivity.
    + assert (Hbit : Z.testbit (if hd false samples then 1 else 0) (k - index) = false).
      { destruct (hd false samples).
        - destruct (Z.ltb_spec (k - index) 0).
          + apply Z.testbit_neg_r. lia.
          + replace (k - index) with (Z.succ (k - index - 1)) by lia.
            change 1 with (2 * 0 + 1). rewrite Z.testbit_odd_succ by lia.
            apply Z.testbit_0_l.
        - apply Z.testbit_0_l. }
      rewrite Hbit, orb_false_r. f_equal.
      destruct (Z.lt_ge_cases k index) as [Hlt|Hge]; [cmp_cases|].
      replace (Z.to_nat (k - index)) with (S (Z.to_nat (k - (index + 1)))) by lia.
      cmp_cases.
      destruct samples; [destruct (Z.to_nat _); reflexivity | reflexivity].
Qed.

Lemma rx_value_testbit (samples : list bool) (k : Z) :
  0 <= k ->
  Z.testbit (rx_value samples) k
  = (k <? 10) && nth (Z.to_nat k) samples false.
Proof.
  intros Hk. unfold rx_value.
  rewrite receive_loop_testbit by lia.
  rewrite Z.testbit_0_l, Z.sub_0_r. cbn [orb Z.of_nat Z.add].
  destruct (Z.leb_spec 0 k); [reflexivity | lia].
Qed.

Lemma nth_map_seq (f : nat -> bool) (n k : nat) (d : bool) :
  (k < n)%nat -> nth k (map f (seq 0 n)) d = f k.
Proof.
  intros Hk.
  rewrite (nth_indep _ d (f 0%nat)) by (rewrite length_map, length_seq; lia).
  rewrite (map_nth f (seq 0 n) 0%nat k), seq_nth by lia. reflexivity.
Qed.

Lemma rx_value_range (samples : list bool) : 0 <= rx_value samples < 1024.
Proof.
  assert (H : rx_value samples = rx_value samples mod 2 ^ 10).
  { apply Z.bits_inj'. intros k Hk.
    rewrite Z.testbit_mod_pow2, rx_value_testbit by lia.
    destruct (k <? 10); reflexivity. }
  rewrite H. apply Z.mod_pos_bound. lia.
Qed.

Lemma rx_value_low_byte (s1 s2 : list bool) :
  take 8 s1 = take 8 s2 -> low8_agree s1 s2.
Proof.
  intros Heq. unfold low8_agree. apply Z.bits_inj'. intros k Hk.
  change 0xff with (Z.ones 8). rewrite !Z.land_ones by lia.
  rewrite !Z.testbit_mod_pow2, !rx_value_testbit by lia.
  destruct (Z.ltb_spec k 8); [|reflexivity]. cbn [andb]. f_equal.
  assert (Hn : forall s, nth (Z.to_nat k) s false = nth (Z.to_nat k) (take 8 s) false).
  { intros s. rewrite nth_firstn.
    destruct (Nat.ltb_spec (Z.to_nat k) 8); [reflexivity | lia]. }
  rewrite (Hn s1), (Hn s2), Heq. reflexivity.
Qed.

Lemma host_frame_low_byte (b : Z) :
  0 <= b < 256 -> Z.land (rx_value (host_frame b)) 0xff = b.
Proof.
  intros Hb. apply Z.eqb_eq.
  apply (below_forallb (fun b => Z.land (rx_value (host_frame b)) 0xff =? b) 256);
    [vm_compute; reflexivity | exact Hb].
Qed.

(** X1: whatever its argument, [transmit] clocks out a start bit 0 and
    then bits 0 to 9 of the argument, least significant first; bits 10
    and above never reach the wire. *)
Theorem transmit_bit_order (keycode : Z) :
  frame_bits keycode
  = false :: map (fun k => Z.testbit keycode (Z.of_nat k)) (seq 0 10)
  /\ frame_bits keycode = frame_bits (Z.land keycode 0x3ff).
Proof.
  split; [apply frame_bits_bits|].
  rewrite !frame_bits_bits. f_equal. apply map_ext_in.
  intros k Hk. apply in_seq in Hk.
  change 0x3ff with (Z.ones 10). rewrite Z.land_ones by lia.
  rewrite Z.mod_pow2_bits_low by lia. reflexivity.
Qed.

(** X2: [receive] stores the level sampled at clock [k] in bit [k] of
    its result, for the ten clocks of a host frame, and nothing else:
    the result is below 1024 and a missing sample reads as 0. *)
Theorem receive_bit_order (samples : list bool) :
  0 <= rx_value samples < 1024
  /\ forall k, (k < 10)%nat ->
               Z.testbit (rx_value samples) (Z.of_nat k) = nth k samples false.
Proof.
  split; [apply rx_value_range|].
  intros k Hk. rewrite rx_value_testbit by lia.
  rewrite Nat2Z.id. destruct (Z.ltb_spec (Z.of_nat k) 10); [reflexivity | lia].
Qed.

(** X3: the two directions of the link agree on the bit order: the ten
    bits [transmit] clocks out after the start bit, read back by the
    loop of [receive], give the low ten bits of the transmitted code. *)
Theorem transmit_receive_round_trip (keycode : Z) :
  rx_value (tl (frame_bits keycode)) = Z.land keycode 0x3ff.
Proof.
  apply Z.bits_inj'. intros k Hk.
  rewrite rx_value_testbit, frame_bits_bits by lia. cbn [tl].
  change 0x3ff with (Z.ones 10). rewrite Z.land_ones, Z.testbit_mod_pow2 by lia.
  destruct (Z.ltb_spec k 10); [|reflexivity]. cbn [andb].
  rewrite nth_map_seq by lia. f_equal. lia.
Qed.

(** Every nonzero table entry is, in its low 16 bits, the packed form
    of its low byte. *)
Lemma table_entries_packed (i j : nat) :
  code_at i j <> 0 ->
  code_at i j mod 65536 = packed (Z.land (code_at i j) 0xff).
Proof.
  assert (Hzero : forall c : Z, c = 0 -> c <> 0 -> c mod 65536 = packed (Z.land c 0xff))
    by (intros c Hc Hn; contradiction).
  do 14 (destruct i as [|i];
         [do 6 (destruct j as [|j];
                [first [reflexivity | apply Hzero; reflexivity]|]);
          apply Hzero; reflexivity|]).
  apply Hzero. reflexivity.
Qed.

(** X4: a byte packed as the table packs it (stop bit at bit 9, odd
    parity at bit 8) is transmitted as the well-formed PS/2 frame of
    that byte. *)
Theorem packed_byte_framed (b : Z) :
  0 <= b < 256 ->
  frame_bits (packed b) = frame b /\ well_formed (frame_bits (packed b)) = true.
Proof.
  intros Hb.
  pose (P := fun b => bool_decide (frame_bits (packed b) = frame b)
                      && well_formed (frame_bits (packed b))).
  assert (H : P b = true).
  { apply (below_forallb P 256); [vm_compute; reflexivity | exact Hb]. }
  unfold P in H. apply andb_true_iff in H as [H1 H2].
  apply bool_decide_eq_true in H1. split; assumption.
Qed.

Lemma packed_byte_framed_witness :
  frame_bits (packed 0x1C) = frame 0x1C.
Proof. apply (packed_byte_framed 0x1C). lia. Defined.

(** X5: when the host presents a byte in a well-formed frame, the
    command branch of [main] executes that byte as the command: after
    the receive, it goes on as [followCommand] on the byte. *)
Theorem serve_host_byte (b : Z) (w : world) (rest : list (list bool)) :
  0 <= b < 256 ->
  host w = host_frame b :: rest ->
  let r := followCommand b (set_host rest w) in
  out (serve w) = Rx :: out r
  /\ post (serve w) = post r
  /\ val (serve w) = val r.
Proof.
  intros Hb Hh. cbv zeta. unfold serve, bind, receive. rewrite Hh.
  cbn [val out post].
  rewrite (followCommand_low_byte (rx_value (host_frame b))).
  rewrite (host_frame_low_byte b Hb).
  repeat split.
Qed.

Lemma serve_host_byte_witness :
  out (serve (set_host [host_frame 0xEE] boot)) = [Rx; Tx (frame 0xEE)].
Proof.
  apply (serve_host_byte 0xEE (set_host [host_frame 0xEE] boot) []);
    [lia | reflexivity].
Defined.

(** X6: the parity and stop bits of a host frame are not looked at: two
    frames with the same eight data levels are served identically,
    whatever the levels sampled at the ninth and tenth clock. *)
Theorem parity_not_verified (s1 s2 : list bool) (rest : list (list bool)) (w : world) :
  take 8 s1 = take 8 s2 ->
  serve (set_host (s1 :: rest) w) = serve (set_host (s2 :: rest) w).
Proof.
  intros Heq. unfold serve, bind, receive. cbn [host set_host val out post].
  rewrite (followCommand_low_byte (rx_value s1)).
  rewrite (followCommand_low_byte (rx_value s2)).
  rewrite (rx_value_low_byte s1 s2 Heq). reflexivity.
Qed.

Lemma parity_not_verified_witness :
  serve (set_host [byte_bits 8 0xF5 ++ [true; false]] boot)
  = serve (set_host [host_frame 0xF5] boot).
Proof. apply parity_not_verified. reflexivity. Defined.

(** * Further properties of the command interpreter *)

(** X7: [followCommand] reads at most one further host frame: exactly
    one (if there is one) for 0xED, 0xF0, 0xF3 and 0xFB to 0xFD, none
    for any other byte.  It fails to return only when such a command
    finds no frame from the host, and has then sent the first ACK and
    nothing else. *)
Theorem command_reads_one_argument (command : Z) (w : world) :
  let c := Z.land command 0xff in
  let r := followCommand command w in
  host (post r) = (if takes_argument c then tl (host w) else host w)
  /\ (val r = None <-> takes_argument c = true /\ host w = [])
  /\ (val r = None -> out r = [Tx (frame 0xFA)] /\ post r = set_LAST_BYTE ACK w).
Proof.
  cbv zeta. unfold followCommand. rewrite low_byte_uint.
  generalize (Z.land command 0xff). intros c.
  destruct w as [lb en rr rd et ks led hs].
  by_command c; cbn [takes_argument existsb Z.eqb Pos.eqb orb].
  all: try (split; [reflexivity|]; split;
            [split; [discriminate | intros [H _]; discriminate H]
            | discriminate]).
  all: destruct hs as [|samples rest]; exec; split_ifs; exec;
    (split; [reflexivity|]).
  all: split;
    [split; [intros H; try discriminate H; split; reflexivity
            | intros [_ H]; try discriminate H; reflexivity]
    | intros H; try discriminate H; split; reflexivity].
Qed.

(** X8: [followCommand] never touches the key stamps or the tick; it
    changes [ENABLE] only on 0xF4 and 0xF5, the repeat rate and delay
    only on 0xF3 and the Caps-Lock pin only on 0xED.  An unknown byte
    therefore changes nothing of the configuration. *)
Theorem command_footprint (command : Z) (w : world) :
  let c := Z.land command 0xff in
  let w' := post (followCommand command w) in
  keyStamps w' = keyStamps w
  /\ ELAPSED_TIME w' = ELAPSED_TIME w
  /\ (c <> 0xf4 -> c <> 0xf5 -> ENABLE w' = ENABLE w)
  /\ (c <> 0xf3 -> REPEAT_RATE w' = REPEAT_RATE w
                   /\ REPEAT_DELAY w' = REPEAT_DELAY w)
  /\ (c <> 0xed -> CAPS_LED w' = CAPS_LED w).
Proof.
  cbv zeta. unfold followCommand. rewrite low_byte_uint.
  generalize (Z.land command 0xff). intros c.
  destruct w as [lb en rr rd et ks led hs].
  by_command c.
  all: try (repeat split; congruence).
  all: destruct hs as [|samples rest]; exec; split_ifs; exec;
    repeat split; congruence.
Qed.

Lemma land_4_testbit (a : Z) : negb (Z.land a 0x04 =? 0) = Z.testbit a 2.
Proof.
  assert (H : forall x, 0 <= x < 8 -> negb (Z.land x 4 =? 0) = Z.testbit x 2).
  { intros x Hx. apply (eqb_prop _ _).
    apply (below_forallb (fun x => Bool.eqb (negb (Z.land x 4 =? 0)) (Z.testbit x 2)) 8);
      [reflexivity | exact Hx]. }
  specialize (H (Z.land a 7)).
  rewrite <- Z.land_assoc, Z.land_spec in H.
  change (Z.land 7 4) with 4 in H. change (Z.testbit 7 2) with true in H.
  rewrite andb_true_r in H. apply H.
  change 7 with (Z.ones 3). rewrite Z.land_ones by lia.
  apply Z.mod_pos_bound. lia.
Qed.

(** X9: on 0xED the interpreter replies ACK, reads the argument,
    replies ACK and drives the Caps-Lock pin with bit 2 of the argument
    (the third data level of the host frame); the rest of the
    configuration is kept. *)
Theorem set_leds (command : Z) (w : world) (samples : list bool)
    (rest : list (list bool)) :
  Z.land command 0xff = 0xed ->
  host w = samples :: rest ->
  let r := followCommand command w in
  out r = [Tx (frame 0xFA); Rx; Tx (frame 0xFA)]
  /\ val r = Some tt
  /\ CAPS_LED (post r) = nth 2 samples false
  /\ ENABLE (post r) = ENABLE w
  /\ REPEAT_RATE (post r) = REPEAT_RATE w
  /\ REPEAT_DELAY (post r) = REPEAT_DELAY w.
Proof.
  intros Hc Hh. cbv zeta. rewrite followCommand_low_byte, Hc.
  destruct w as [lb en rr rd et ks led hs]. cbn [host] in Hh. subst hs.
  unfold followCommand. change (Z.land (0xed mod 65536) 0xff) with 0xed.
  cbv iota. exec.
  pose proof (land_4_testbit (rx_value samples)) as Hbit.
  rewrite (rx_value_testbit samples 2) in Hbit by lia.
  change (Z.to_nat 2) with 2%nat in Hbit.
  change (2 <? 10) with true in Hbit. cbn [andb] in Hbit.
  rewrite <- Hbit.
  destruct (Z.land (rx_value samples) 4 =? 0); repeat split.
Qed.

Lemma set_leds_witness :
  CAPS_LED (post (followCommand 0xed (set_host [host_frame 0x04] boot))) = true.
Proof.
  destruct (set_leds 0xed (set_host [host_frame 0x04] boot) (host_frame 0x04) [])
    as (_ & _ & H & _); [reflexivity | reflexivity | exact H].
Defined.

(** * Further properties of the main loop *)

Lemma timer2Int_footprint (w : world) :
  let w' := post (timer2Int w) in
  LAST_BYTE w' = LAST_BYTE w /\ ENABLE w' = ENABLE w
  /\ REPEAT_RATE w' = REPEAT_RATE w /\ REPEAT_DELAY w' = REPEAT_DELAY w
  /\ CAPS_LED w' = CAPS_LED w /\ host w' = host w
  /\ ELAPSED_TIME w'
     = (if (ELAPSED_TIME w + 1) mod 256 >? 127 then 0
        else (ELAPSED_TIME w + 1) mod 256).
Proof.
  cbv zeta. unfold timer2Int. destruct w as [lb en rr rd et ks led hs]. exec.
  destruct ((et + 1) mod 256 >? 127); repeat split.
Qed.

Lemma scan_footprint (i j : nat) (clk pressed : bool) (w : world) :
  let w' := post (step (Scan i j clk pressed) w) in
  ENABLE w' = ENABLE w
  /\ REPEAT_RATE w' = REPEAT_RATE w /\ REPEAT_DELAY w' = REPEAT_DELAY w
  /\ CAPS_LED w' = CAPS_LED w /\ host w' = host w.
Proof.
  cbv zeta. unfold step, scan_cell, stamp_at, set_stamp.
  destruct w as [lb en rr rd et ks led hs]. exec.
  destruct (en =? 0); [repeat split|].
  destruct clk; [|repeat split].
  cbv beta iota zeta delta [negb].
  destruct pressed.
  - destruct (Matrix.get ks i j =? 0).
    + exec_sendCode. repeat split.
    + destruct (repeat_due (Matrix.get ks i j) et rd); [|repeat split].
      match goal with
      | |- context [if ?b then _ else _] => destruct b
      end.
      * exec_sendCode. repeat split.
      * repeat split.
  - destruct (Matrix.get ks i j =? 0); [repeat split|].
    cbv beta iota zeta delta [negb]. exec_sendCode. repeat split.
Qed.

Lemma scan_disabled (i j : nat) (clk pressed : bool) (w : world) :
  ENABLE w = 0 -> step (Scan i j clk pressed) w = Result [] w (Some tt).
Proof.
  intros H. unfold step, bind, get. cbn [val post out]. rewrite H. reflexivity.
Qed.

(** X10: while [ENABLE] is 0 the scanner is silent: a run of ticks and
    cell visits, whatever the rows read, emits nothing, returns, and
    leaves the key stamps, [LAST_BYTE] and [ENABLE] as they were. *)
Theorem disabled_scanner_silent (ops : list op) (w : world) :
  ENABLE w = 0 ->
  Forall (fun o => o <> Serve) ops ->
  let r := run ops w in
  out r = [] /\ val r = Some tt
  /\ keyStamps (post r) = keyStamps w
  /\ LAST_BYTE (post r) = LAST_BYTE w
  /\ ENABLE (post r) = 0.
Proof.
  intros Hen Hops. cbv zeta. revert w Hen.
  induction Hops as [|o ops Ho Hops IH]; intros w Hen.
  - repeat split. exact Hen.
  - rewrite run_cons.
    assert (Hstep : out (step o w) = [] /\ val (step o w) = Some tt
                    /\ keyStamps (post (step o w)) = keyStamps w
                    /\ LAST_BYTE (post (step o w)) = LAST_BYTE w
                    /\ ENABLE (post (step o w)) = 0).
    { destruct o as [|i j clk pressed|]; [| |contradiction].
      - cbn [step]. destruct (timer2Int_spec w) as (Hv & Ho' & Hk & _).
        destruct (timer2Int_footprint w) as (Hl & He & _).
        rewrite Hv, Ho', Hk, Hl, He. repeat split. exact Hen.
      - rewrite (scan_disabled i j clk pressed w Hen). repeat split. exact Hen. }
    destruct Hstep as (Hout & Hval & Hks & Hlb & Hen').
    rewrite Hval, Hout. cbn [out post val app].
    destruct (IH (post (step o w)) Hen') as (H1 & H2 & H3 & H4 & H5).
    rewrite H1, H2, H3, H4, H5, Hks, Hlb. repeat split.
Qed.

Lemma disabled_scanner_silent_witness :
  let w := post (run [Serve] (set_host [host_frame 0xF5] boot)) in
  out (run (Tick :: main_round true true (fun i j => Reading 1 true true)) w) = [].
Proof.
  cbv zeta. apply disabled_scanner_silent; [reflexivity|].
  apply Forall_forall. intros o Hin.
  apply list_elem_of_In in Hin.
  assert (H : forallb (fun o => negb (bool_decide (o = Serve)))
                (Tick :: main_round true true (fun i j => Reading 1 true true)) = true)
    by (vm_compute; reflexivity).
  rewrite forallb_forall in H. specialize (H o Hin).
  apply negb_true_iff, bool_decide_eq_false in H. exact H.
Defined.

Lemma followCommand_valid (command : Z) (w : world) :
  valid_config w -> valid_config (post (followCommand command w)).
Proof.
  unfold valid_config, followCommand.
  generalize (Z.land (command mod 65536) 0xff). intros c.
  destruct w as [lb en rr rd et ks led hs]. cbn [ENABLE REPEAT_RATE REPEAT_DELAY].
  intros (He & Hr & Hd).
  by_command c.
  all: try (repeat split; first [assumption | cbn; auto 10]).
  all: destruct hs as [|samples rest]; exec; unfold rate_of_arg, delay_of_arg;
    split_ifs; exec; repeat split; first [assumption | cbn; auto 10].
Qed.

Lemma step_valid (o : op) (w : world) :
  valid_config w -> valid_config (post (step o w)).
Proof.
  intros Hv. destruct o as [|i j clk pressed|].
  - cbn [step]. destruct (timer2Int_footprint w) as (_ & He & Hr & Hd & _).
    unfold valid_config. rewrite He, Hr, Hd. exact Hv.
  - destruct (scan_footprint i j clk pressed w) as (He & Hr & Hd & _).
    unfold valid_config. rewrite He, Hr, Hd. exact Hv.
  - cbn [step]. unfold serve, bind, receive.
    destruct (host w) as [|samples rest]; [exact Hv|].
    cbn [val post out]. apply followCommand_valid. exact Hv.
Qed.

(** X11: the configuration stays within the values the source assigns:
    from a state with [ENABLE] 0 or 1, rate in 3, 6, 12, 25, 50 and
    delay in 25, 50, 75, 100, every run ends in such a state; the rate
    is never 0, so the [%] of the scanner is always defined. *)
Theorem config_stays_valid (ops : list op) (w : world) :
  valid_config w ->
  valid_config (post (run ops w)) /\ 0 < REPEAT_RATE (post (run ops w)).
Proof.
  intros Hv.
  assert (H : valid_config (post (run ops w))).
  { revert w Hv. induction ops as [|o ops IH]; intros w Hv; [exact Hv|].
    rewrite run_cons. pose proof (step_valid o w Hv) as Hs.
    destruct (val (step o w)); cbn [post]; [apply IH|]; exact Hs. }
  split; [exact H|].
  destruct H as (_ & Hr & _). cbn [In] in Hr.
  destruct Hr as [<-|[<-|[<-|[<-|[<-|[]]]]]]; lia.
Qed.

Lemma config_stays_valid_witness :
  0 < REPEAT_RATE (post (run [Serve; Tick; Scan 1 2 true true]
                           (set_host [host_frame 0xF3; host_frame 0x7F] boot))).
Proof.
  apply config_stays_valid. unfold valid_config.
  cbn. auto 10.
Defined.

Lemma followCommand_tracks (command : Z) (w : world) :
  tracks w (followCommand command w).
Proof.
  unfold tracks, followCommand.
  generalize (Z.land (command mod 65536) 0xff). intros c.
  destruct w as [lb en rr rd et ks led hs].
  by_command c; try reflexivity.
  all: destruct hs as [|samples rest]; exec; split_ifs; reflexivity.
Qed.

Lemma step_tracks (o : op) (w : world) : tracks w (step o w).
Proof.
  destruct o as [|i j clk pressed|].
  - cbn [step]. unfold tracks.
    destruct (timer2Int_spec w) as (_ & -> & _).
    destruct (timer2Int_footprint w) as (Hl & _). exact Hl.
  - unfold tracks, step, scan_cell, stamp_at, set_stamp.
    destruct w as [lb en rr rd et ks led hs]. exec.
    destruct (en =? 0); [reflexivity|].
    destruct clk; [|reflexivity].
    cbv beta iota zeta delta [negb].
    destruct pressed.
    + destruct (Matrix.get ks i j =? 0).
      * exec_sendCode. unfold make_sequence.
        destruct (extended (code_at i j)); reflexivity.
      * destruct (repeat_due (Matrix.get ks i j) et rd); [|reflexivity].
        match goal with
        | |- context [if ?b then _ else _] => destruct b
        end; [|reflexivity].
        exec_sendCode. unfold make_sequence.
        destruct (extended (code_at i j)); reflexivity.
    + destruct (Matrix.get ks i j =? 0); [reflexivity|].
      cbv beta iota zeta delta [negb]. exec_sendCode. unfold break_sequence.
      destruct (extended (code_at i j)); reflexivity.
  - cbn [step]. unfold serve, bind, receive.
    destruct (host w) as [|samples rest] eqn:Hh; [reflexivity|].
    cbn [val post out].
    pose proof (followCommand_tracks (rx_value samples) (set_host rest w)) as H.
    unfold tracks in *. cbn [app frames]. exact H.
Qed.

(** X12: after every run [LAST_BYTE] holds the code of the frame
    transmitted last, and its old value when the run transmitted
    nothing. *)
Theorem last_byte_tracks (ops : list op) (w : world) :
  match last (frames (out (run ops w))) with
  | Some f => f = frame_bits (LAST_BYTE (post (run ops w)))
  | None => LAST_BYTE (post (run ops w)) = LAST_BYTE w
  end.
Proof.
  change (tracks w (run ops w)).
  revert w. induction ops as [|o ops IH]; intros w; [reflexivity|].
  rewrite run_cons. pose proof (step_tracks o w) as Hs.
  destruct (val (step o w)); [|exact Hs].
  specialize (IH (post (step o w))).
  unfold tracks in *. cbn [out post].
  rewrite frames_app, last_app.
  destruct (last (frames (out (run ops (post (step o w)))))) as [f|].
  - exact IH.
  - rewrite IH. exact Hs.
Qed.

(** X13: the tick counts modulo 128: from a tick below 128, [n] runs of
    the timer interrupt leave [(tick + n) mod 128], and emit nothing. *)
Theorem tick_counter (n : nat) (w : world) :
  0 <= ELAPSED_TIME w < 128 ->
  let r := run (replicate n Tick) w in
  ELAPSED_TIME (post r) = (ELAPSED_TIME w + Z.of_nat n) mod 128
  /\ out r = [] /\ val r = Some tt.
Proof.
  cbv zeta. revert w. induction n as [|n IH]; intros w Ht.
  - cbn [replicate run]. unfold ret. cbn [post out val].
    rewrite Z.add_0_r, Z.mod_small by lia. repeat split.
  - cbn [replicate]. rewrite run_cons. cbn [step].
    destruct (timer2Int_spec w) as (Hv & Ho & _ & Hr).
    destruct (timer2Int_footprint w) as (_ & _ & _ & _ & _ & _ & He).
    rewrite Hv, Ho. cbn [post out val app].
    destruct (IH (post (timer2Int w)) Hr) as (H1 & H2 & H3).
    rewrite H1, H2, H3, He. repeat split.
    replace (ELAPSED_TIME w + Z.of_nat (S n))
      with ((ELAPSED_TIME w + 1) + Z.of_nat n) by lia.
    rewrite (Z.mod_small (ELAPSED_TIME w + 1) 256) by lia.
    destruct (Z.gtb_spec (ELAPSED_TIME w + 1) 127).
    + replace (ELAPSED_TIME w + 1) with 128 by lia.
      rewrite <- (Z.mod_add (0 + Z.of_nat n) 1 128) by lia. f_equal. lia.
    + reflexivity.
Qed.

Lemma tick_counter_witness :
  ELAPSED_TIME (post (run (replicate 130 Tick) boot)) = 2.
Proof.
  destruct (tick_counter 130 boot) as (H & _); [cbn; lia|]. exact H.
Defined.

(** * Further properties of the scanner *)

Lemma paced_app (a b : list event) : paced a -> paced b -> paced (a ++ b).
Proof. induction 1; intros Hb; [exact Hb | cbn [app]; constructor; auto]. Qed.

Lemma sent_sequence_paced (code : Z) (sent : option bool) :
  paced (sent_sequence code sent).
Proof.
  destruct sent as [[|]|]; cbn [sent_sequence];
    unfold make_sequence, break_sequence;
    destruct (extended code); cbn [app]; repeat constructor.
Qed.

Lemma gaps_paced (evs : list event) :
  paced evs ->
  forall idle, idle = None \/ idle = Some BREAK ->
               Forall (fun d => BREAK <= d) (gaps_from idle evs).
Proof.
  induction 1 as [|bits evs Hp IH]; intros idle Hidle; [constructor|].
  cbn [gaps_from option_map].
  destruct Hidle as [->| ->].
  - apply IH. right. reflexivity.
  - constructor; [lia|]. apply IH. right. reflexivity.
Qed.

Lemma step_paced (o : op) (w : world) : o <> Serve -> paced (out (step o w)).
Proof.
  intros Ho. destruct o as [|i j clk pressed|]; [| |contradiction].
  - cbn [step]. destruct (timer2Int_spec w) as (_ & -> & _). constructor.
  - destruct (scan_outcome i j clk pressed w) as (_ & H & _).
    destruct H; first [constructor | apply (sent_sequence_paced _ (Some true))
                      | apply (sent_sequence_paced _ (Some false))].
Qed.

(** X14: in every run without host commands, successive frames are at
    least BREAK microseconds apart: each frame of a make or break
    sequence is followed by its own delay, also the last one. *)
Theorem scanner_frames_paced (ops : list op) (w : world) :
  Forall (fun o => o <> Serve) ops ->
  Forall (fun d => BREAK <= d) (gaps (out (run ops w))).
Proof.
  intros Hops. apply gaps_paced; [|left; reflexivity].
  revert w. induction Hops as [|o ops Ho Hops IH]; intros w; [constructor|].
  rewrite run_cons. pose proof (step_paced o w Ho) as Hs.
  destruct (val (step o w)); cbn [out]; [|exact Hs].
  apply paced_app; [exact Hs | apply IH].
Qed.

Lemma scanner_frames_paced_witness :
  Forall (fun d => BREAK <= d)
    (gaps (out (run [Tick; Scan 9 0 true true; Scan 1 2 true true;
                     Tick; Scan 9 0 true false] boot))).
Proof.
  apply scanner_frames_paced. repeat constructor; discriminate.
Defined.

Module MatrixMore.
Import Matrix.

Lemma set_get_id (m : list (list Z)) (i j : nat) :
  set m i j (get m i j) = m.
Proof.
  unfold set, get.
  destruct (m !! i) as [col|] eqn:Hi; [|reflexivity].
  apply list_insert_id. rewrite Hi. f_equal. symmetry.
  apply list_insert_id'. intros Hj.
  destruct (lookup_lt_is_Some_2 col j Hj) as [x Hx]. rewrite Hx. reflexivity.
Qed.

Lemma set_set (m : list (list Z)) (i j : nat) (a b : Z) :
  set (set m i j a) i j b = set m i j b.
Proof.
  unfold set.
  destruct (m !! i) as [col|] eqn:Hi; [|rewrite Hi; reflexivity].
  rewrite list_lookup_insert_eq by (eapply lookup_lt_Some; eassumption).
  rewrite !list_insert_insert_eq. reflexivity.
Qed.

Lemma set_bytes (m : list (list Z)) (i j : nat) (v : Z) :
  Forall (Forall (fun s => 0 <= s < 256)) m -> 0 <= v < 256 ->
  Forall (Forall (fun s => 0 <= s < 256)) (set m i j v).
Proof.
  intros Hm Hv. unfold set.
  destruct (m !! i) as [col|] eqn:Hi; [|exact Hm].
  apply Forall_insert; [exact Hm|].
  apply Forall_insert; [|exact Hv].
  apply (Forall_lookup_1 _ _ _ _ Hm Hi).
Qed.

End MatrixMore.

(** The effect of a visit that is carried out, by the transition of the
    visited key. *)
Lemma scan_exact (i j : nat) (pressed : bool) (w : world) :
  ENABLE w <> 0 ->
  let next := cell_next (Matrix.get (keyStamps w) i j) (ELAPSED_TIME w)
                (REPEAT_DELAY w) (REPEAT_RATE w) pressed in
  let r := step (Scan i j true pressed) w in
  keyStamps (post r) = Matrix.set (keyStamps w) i j next.1
  /\ out r = sent_sequence (code_at i j) next.2.
Proof.
  intros Hen. cbv zeta. unfold step, scan_cell, stamp_at, set_stamp, cell_next.
  destruct w as [lb en rr rd et ks led hs]. cbn [ENABLE] in Hen. exec.
  rewrite (proj2 (Z.eqb_neq en 0) Hen).
  cbv beta iota zeta delta [negb].
  destruct pressed.
  - destruct (Matrix.get ks i j =? 0) eqn:Hs.
    + exec_sendCode. rewrite app_nil_r. split; reflexivity.
    + apply Z.eqb_neq in Hs.
      destruct (repeat_due (Matrix.get ks i j) et rd);
        [|cbn [fst snd]; rewrite MatrixMore.set_get_id; split; reflexivity].
      rewrite (MatrixFacts.get_set_same ks i j _ Hs).
      match goal with
      | |- context [if ?b then _ else _] => destruct b
      end.
      * exec_sendCode. cbn [fst snd]. rewrite MatrixMore.set_set.
        split; reflexivity.
      * cbn [fst snd]. split; reflexivity.
  - destruct (Matrix.get ks i j =? 0) eqn:Hs;
      cbv beta iota zeta delta [negb];
      [cbn [fst snd]; rewrite MatrixMore.set_get_id; split; reflexivity|].
    exec_sendCode. rewrite app_nil_r. split; reflexivity.
Qed.

Lemma scan_aborted (i j : nat) (pressed : bool) (w : world) :
  step (Scan i j false pressed) w = Result [] w (Some tt).
Proof.
  unfold step, scan_cell, bind, get, ret. cbn [val post out negb].
  destruct (ENABLE w =? 0); reflexivity.
Qed.

(** X15: keys are independent: what a visit of a key emits and the
    stamp it leaves depend on that key's stamp, the tick, [ENABLE] and
    the repeat delay and rate only, not on the other keys, [LAST_BYTE],
    the Caps-Lock pin or the frames the host has pending. *)
Theorem keys_independent (i j : nat) (clk pressed : bool) (w1 w2 : world) :
  (i < 14)%nat -> (j < 6)%nat ->
  Matrix.shaped (keyStamps w1) -> Matrix.shaped (keyStamps w2) ->
  Matrix.get (keyStamps w1) i j = Matrix.get (keyStamps w2) i j ->
  ELAPSED_TIME w1 = ELAPSED_TIME w2 ->
  ENABLE w1 = ENABLE w2 ->
  REPEAT_DELAY w1 = REPEAT_DELAY w2 ->
  REPEAT_RATE w1 = REPEAT_RATE w2 ->
  let r1 := step (Scan i j clk pressed) w1 in
  let r2 := step (Scan i j clk pressed) w2 in
  out r1 = out r2
  /\ Matrix.get (keyStamps (post r1)) i j = Matrix.get (keyStamps (post r2)) i j.
Proof.
  intros Hi Hj Hs1 Hs2 Hs Ht He Hd Hr. cbv zeta.
  destruct clk; [|rewrite !scan_aborted; split; [reflexivity | exact Hs]].
  destruct (Z.eq_dec (ENABLE w1) 0) as [H0|Hn].
  - rewrite !scan_disabled by congruence. split; [reflexivity | exact Hs].
  - destruct (scan_exact i j pressed w1 Hn) as [Hk1 Ho1].
    destruct (scan_exact i j pressed w2) as [Hk2 Ho2]; [congruence|].
    rewrite Hk1, Hk2, Ho1, Ho2, Hs, Ht, Hd, Hr.
    rewrite !MatrixFacts.get_set_in_range by assumption.
    split; reflexivity.
Qed.

Lemma keys_independent_witness :
  let w1 := post (run [Tick; Scan 9 0 true true] boot) in
  let w2 := post (run [Tick] boot) in
  out (step (Scan 1 2 true true) w1) = out (step (Scan 1 2 true true) w2).
Proof.
  cbv zeta.
  apply keys_independent; try reflexivity; try lia;
    split; [reflexivity | repeat constructor | reflexivity | repeat constructor].
Defined.

Lemma lor_bit7_range (s : Z) : 128 <= Z.lor s 0x80 mod 256 < 256.
Proof.
  pose proof (Z.mod_pos_bound (Z.lor s 0x80) 256 ltac:(lia)) as Hb.
  split; [|lia].
  destruct (Z.lt_ge_cases (Z.lor s 0x80 mod 256) 128) as [Hlt|]; [|assumption].
  exfalso.
  assert (Hbit : Z.testbit (Z.lor s 0x80 mod 256) 7 = true).
  { change 256 with (2 ^ 8). rewrite Z.mod_pow2_bits_low, Z.lor_spec by lia.
    apply orb_true_r. }
  rewrite <- (Z.mod_small (Z.lor s 0x80 mod 256) (2 ^ 7)) in Hbit
    by (change (2 ^ 7) with 128; lia).
  rewrite Z.mod_pow2_bits_high in Hbit by lia. discriminate.
Qed.

Lemma lor_bit7_idem (s : Z) :
  Z.lor (Z.lor s 0x80 mod 256) 0x80 mod 256 = Z.lor s 0x80 mod 256.
Proof.
  change 256 with (2 ^ 8). apply Z.bits_inj'. intros k Hk.
  rewrite !Z.testbit_mod_pow2, !Z.lor_spec, !Z.testbit_mod_pow2, !Z.lor_spec by lia.
  destruct (k <? 8), (Z.testbit s k), (Z.testbit 128 k); reflexivity.
Qed.

Lemma tick_stamp (t : Z) :
  0 <= t < 128 ->
  Z.lor 0x80 t mod 256 = 128 + t /\ Z.land (128 + t) 0x7f = t.
Proof.
  intros Ht.
  pose (P := fun t => (Z.lor 0x80 t mod 256 =? 128 + t)
                      && (Z.land (128 + t) 0x7f =? t)).
  assert (H : P t = true)
    by (apply (below_forallb P 128); [vm_compute; reflexivity | exact Ht]).
  unfold P in H. apply andb_true_iff in H as [H1 H2].
  split; apply Z.eqb_eq; assumption.
Qed.

Lemma repeating_stamp (s : Z) :
  128 <= s < 256 ->
  Z.lor s 0x80 mod 256 = s /\ Z.land s 0x7f = s - 128.
Proof.
  intros Hs.
  pose (P := fun s => (s <? 128)
                      || ((Z.lor s 0x80 mod 256 =? s) && (Z.land s 0x7f =? s - 128))).
  assert (H : P s = true)
    by (apply (below_forallb P 256); [vm_compute; reflexivity | lia]).
  unfold P in H. apply orb_true_iff in H as [H|H]; [lia|].
  apply andb_true_iff in H as [H1 H2].
  split; apply Z.eqb_eq; assumption.
Qed.

(** The key transition, taken twice at one tick, sends nothing the
    second time. *)
Lemma cell_next_twice (s t delay rate : Z) :
  0 < t < 128 ->
  (cell_next (cell_next s t delay rate true).1 t delay rate true).2 = None.
Proof.
  intros Ht. unfold cell_next at 2.
  destruct (s =? 0) eqn:Hs.
  - cbn [fst]. rewrite Z.mod_small by lia. unfold cell_next.
    rewrite (proj2 (Z.eqb_neq t 0)) by lia.
    unfold repeat_due.
    replace (t >=? 128) with false by lia.
    rewrite Z.gtb_ltb, Z.ltb_irrefl. reflexivity.
  - destruct (repeat_due s t delay) eqn:Hdue.
    + destruct ((Z.rem t rate =? 0)
                && negb (Z.land (Z.lor s 128 mod 256) 127 =? t)) eqn:Hfire.
      * cbn [fst]. destruct (tick_stamp t ltac:(lia)) as [H1 H2].
        rewrite H1. unfold cell_next.
        rewrite (proj2 (Z.eqb_neq (128 + t) 0)) by lia.
        unfold repeat_due. replace (128 + t >=? 128) with true by lia.
        cbn [orb].
        destruct (repeating_stamp (128 + t) ltac:(lia)) as [H3 H4].
        rewrite H3, H4.
        replace (128 + t - 128 =? t) with true by lia.
        rewrite andb_false_r. reflexivity.
      * cbn [fst]. unfold cell_next.
        pose proof (lor_bit7_range s) as Hr.
        rewrite (proj2 (Z.eqb_neq (Z.lor s 128 mod 256) 0)) by lia.
        unfold repeat_due.
        replace (Z.lor s 128 mod 256 >=? 128) with true by lia.
        cbn [orb]. rewrite lor_bit7_idem, Hfire. reflexivity.
    + cbn [fst]. unfold cell_next. rewrite Hs, Hdue. reflexivity.
Qed.

(** X16: at most one make per key and tick: after a pressed visit that
    was carried out at a nonzero tick, a second pressed visit of the
    same key before the next tick emits nothing. *)
Theorem one_make_per_tick (i j : nat) (clk : bool) (w : world) :
  (i < 14)%nat -> (j < 6)%nat ->
  Matrix.shaped (keyStamps w) ->
  ENABLE w <> 0 ->
  0 < ELAPSED_TIME w < 128 ->
  let w1 := post (step (Scan i j true true) w) in
  out (step (Scan i j clk true) w1) = [].
Proof.
  intros Hi Hj Hsh Hen Ht. cbv zeta.
  destruct clk; [|rewrite scan_aborted; reflexivity].
  destruct (scan_exact i j true w Hen) as [Hk _].
  destruct (scan_footprint i j true true w) as (He & Hr & Hd & _).
  destruct (scan_outcome i j true true w) as (_ & _ & Htick).
  cbv zeta in He, Hr, Hd, Htick.
  destruct (scan_exact i j true (post (step (Scan i j true true) w)))
    as [_ Ho]; [congruence|].
  rewrite Ho, Hk, Htick, Hr, Hd.
  rewrite MatrixFacts.get_set_in_range by assumption.
  rewrite cell_next_twice by assumption. reflexivity.
Qed.

Lemma one_make_per_tick_witness :
  let w := post (run [Tick; Tick] boot) in
  out (step (Scan 1 2 true true) (post (step (Scan 1 2 true true) w))) = [].
Proof.
  cbv zeta. apply one_make_per_tick.
  - lia.
  - lia.
  - split; [reflexivity | repeat constructor].
  - discriminate.
  - vm_compute. split; reflexivity.
Defined.

(** X17: the repeat rule: for a key in the repeating phase (stamp 128
    to 255) a pressed visit sends the make exactly when the tick is a
    multiple of [REPEAT_RATE] and differs from the tick kept in the low
    seven bits of the stamp; the stamp becomes 128 + tick then, and is
    kept otherwise. *)
Theorem repeat_rule (i j : nat) (w : world) :
  ENABLE w <> 0 ->
  0 <= ELAPSED_TIME w < 128 ->
  128 <= Matrix.get (keyStamps w) i j < 256 ->
  let s := Matrix.get (keyStamps w) i j in
  let t := ELAPSED_TIME w in
  let fire := (Z.rem t (REPEAT_RATE w) =? 0) && negb (s - 128 =? t) in
  let r := step (Scan i j true true) w in
  out r = (if fire then make_sequence (code_at i j) else [])
  /\ Matrix.get (keyStamps (post r)) i j = (if fire then 128 + t else s).
Proof.
  intros Hen Ht Hs. cbv zeta.
  destruct (scan_exact i j true w Hen) as [Hk Ho].
  rewrite Ho, Hk, MatrixFacts.get_set_same by lia.
  unfold cell_next.
  rewrite (proj2 (Z.eqb_neq _ 0)) by lia.
  unfold repeat_due.
  replace (Matrix.get (keyStamps w) i j >=? 128) with true by lia.
  cbn [orb].
  destruct (repeating_stamp _ Hs) as [H1 H2]. rewrite H1, H2.
  destruct (tick_stamp _ Ht) as [H3 _]. rewrite H3.
  destruct ((Z.rem (ELAPSED_TIME w) (REPEAT_RATE w) =? 0)
            && negb (Matrix.get (keyStamps w) i j - 128 =? ELAPSED_TIME w));
    split; reflexivity.
Qed.

Lemma repeat_rule_witness :
  let ops := [Tick; Scan 1 2 true true] ++ replicate 127 Tick
             ++ [Scan 1 2 true true] ++ replicate 50 Tick in
  let w := post (run ops boot) in
  out (step (Scan 1 2 true true) w) = make_sequence (code_at 1 2).
Proof.
  cbv zeta.
  match goal with
  | |- out (step _ ?w) = _ =>
      destruct (repeat_rule 1 2 w) as [H _];
        [vm_compute; discriminate
        | vm_compute; split; first [discriminate | reflexivity]
        | vm_compute; split; first [discriminate | reflexivity]
        | exact H]
  end.
Defined.

Lemma step_bytes (o : op) (w : world) :
  stamps_bytes w -> stamps_bytes (post (step o w)).
Proof.
  unfold stamps_bytes. intros Hb. destruct o as [|i j clk pressed|].
  - cbn [step]. destruct (timer2Int_spec w) as (_ & _ & -> & _). exact Hb.
  - destruct (scan_outcome i j clk pressed w) as (_ & Ho & _).
    destruct Ho; repeat apply MatrixMore.set_bytes;
      first [exact Hb | apply Z.mod_pos_bound; lia | lia].
  - cbn [step]. rewrite (proj1 (serve_keyStamps w)). exact Hb.
Qed.

(** X18: every run keeps the tick below 128, the 14 by 6 shape of the
    stamp array, and each stamp within a byte. *)
Theorem state_invariant (ops : list op) (w : world) :
  sane w -> stamps_bytes w ->
  sane (post (run ops w)) /\ stamps_bytes (post (run ops w)).
Proof.
  revert w. induction ops as [|o ops IH]; intros w Hs Hb; [split; assumption|].
  rewrite run_cons.
  pose proof (step_sane o w Hs) as Hs'. pose proof (step_bytes o w Hb) as Hb'.
  destruct (val (step o w)); cbn [post]; [apply IH; assumption | split; assumption].
Qed.

Lemma state_invariant_witness :
  let ops := Tick :: main_round true true (fun i j => Reading 1 true true) in
  sane (post (run ops boot)) /\ stamps_bytes (post (run ops boot)).
Proof.
  cbv zeta. apply state_invariant.
  - split; [cbn; lia | apply MatrixFacts.zeros_shaped].
  - unfold stamps_bytes. cbn. repeat constructor; lia.
Defined.

(** X19: for a delay of up to 16383 microseconds, [delay_us] loads
    Timer 0 with 0xFFFF - 2 * us, split into a low and a high byte that
    recompose to that value. *)
Theorem delay_reload_value (us : Z) :
  0 <= us < 16384 ->
  let '(tl0, th0) := delay_us_reload us in
  th0 * 256 + tl0 = 0xffff - 2 * us
  /\ 0 <= tl0 < 256 /\ 0 <= th0 < 256.
Proof.
  intros Hus. unfold delay_us_reload, int16.
  replace ((us + us + 32768) mod 65536 - 32768) with (2 * us)
    by (rewrite Z.mod_small by lia; lia).
  rewrite (Z.mod_small (0xffff - 2 * us)) by lia.
  change 0xff with (Z.ones 8). rewrite Z.land_ones, Z.shiftr_div_pow2 by lia.
  change (2 ^ 8) with 256.
  set (pause := 65535 - 2 * us).
  pose proof (Z.div_mod pause 256 ltac:(lia)) as Hdm.
  pose proof (Z.mod_pos_bound pause 256 ltac:(lia)) as Hm.
  assert (0 <= pause / 256 < 256).
  { split; [apply Z.div_pos; lia | apply Z.div_lt_upper_bound; lia]. }
  repeat split; lia.
Qed.

Lemma delay_reload_value_witness :
  let '(tl0, th0) := delay_us_reload BREAK in
  th0 * 256 + tl0 = 0xffff - 2 * BREAK.
Proof.
  assert (Hb : 0 <= BREAK < 16384) by (unfold BREAK; lia).
  generalize (delay_reload_value BREAK Hb).
  destruct (delay_us_reload BREAK) as [tl0 th0]. intros (H & _). exact H.
Defined.

Lemma elapsed_cases (s t : Z) :
  0 < s < 128 -> 0 <= t < 128 ->
  (t - s) mod 128 = (if t <? s then t - s + 128 else t - s).
Proof.
  intros Hs Ht. destruct (Z.ltb_spec t s).
  - rewrite <- (Z.mod_add (t - s) 1 128) by lia. apply Z.mod_small. lia.
  - apply Z.mod_small. lia.
Qed.

(** X20: the initial delay: for a key in the initial phase (stamp 1 to
    127), a pressed visit emits nothing and keeps the stamp while the
    ticks elapsed since the press, modulo 128, are fewer than
    [REPEAT_DELAY]; once they exceed it the key is put in the repeating
    phase. *)
Theorem repeat_delay_bounds (i j : nat) (w : world) :
  ENABLE w <> 0 ->
  0 <= REPEAT_DELAY w ->
  0 <= ELAPSED_TIME w < 128 ->
  0 < Matrix.get (keyStamps w) i j < 128 ->
  let s := Matrix.get (keyStamps w) i j in
  let elapsed := (ELAPSED_TIME w - s) mod 128 in
  let r := step (Scan i j true true) w in
  (elapsed < REPEAT_DELAY w ->
   out r = [] /\ Matrix.get (keyStamps (post r)) i j = s)
  /\ (REPEAT_DELAY w < elapsed ->
      128 <= Matrix.get (keyStamps (post r)) i j).
Proof.
  intros Hen Hd Ht Hs. cbv zeta.
  destruct (scan_exact i j true w Hen) as [Hk Ho].
  rewrite Ho, Hk, MatrixFacts.get_set_same by lia.
  rewrite (elapsed_cases _ _ Hs Ht).
  unfold cell_next. rewrite (proj2 (Z.eqb_neq _ 0)) by lia.
  unfold repeat_due, wrap_elapsed.
  set (s := Matrix.get (keyStamps w) i j) in *.
  set (t := ELAPSED_TIME w) in *. set (d := REPEAT_DELAY w) in *.
  split.
  - intros Hlt.
    replace (s >=? 128) with false by lia.
    destruct (Z.ltb_spec t s).
    + replace (t >? s) with false by lia.
      replace (127 - s + t >=? d) with false by lia.
      split; reflexivity.
    + destruct (Z.eq_dec t s) as [->|].
      * rewrite Z.gtb_ltb, Z.ltb_irrefl. split; reflexivity.
      * replace (t - s >=? d) with false by lia.
        replace (t <? s) with false by lia.
        rewrite andb_false_r. split; reflexivity.
  - intros Hgt.
    assert (Hdue : (s >=? 128) || (t >? s) && (t - s >=? d)
                   || (t <? s) && (127 - s + t >=? d) = true).
    { destruct (Z.ltb_spec t s).
      - replace (127 - s + t >=? d) with true by lia.
        rewrite orb_true_r. reflexivity.
      - replace (t >? s) with true by lia.
        replace (t - s >=? d) with true by lia.
        rewrite orb_true_r. reflexivity. }
    rewrite Hdue.
    match goal with
    | |- context [if ?b then _ else _] => destruct b
    end; cbn [fst].
    + destruct (tick_stamp t Ht) as [-> _]. lia.
    + apply lor_bit7_range.
Qed.

Lemma repeat_delay_bounds_witness :
  let ops := [Tick; Scan 1 2 true true] ++ replicate 99 Tick in
  let w := post (run ops boot) in
  out (step (Scan 1 2 true true) w) = [].
Proof.
  cbv zeta.
  match goal with
  | |- out (step _ ?w) = _ =>
      destruct (repeat_delay_bounds 1 2 w) as [H _];
        [vm_compute; discriminate
        | vm_compute; discriminate
        | vm_compute; split; first [discriminate | reflexivity]
        | vm_compute; split; first [discriminate | reflexivity]
        | apply H; vm_compute; reflexivity]
  end.
Defined.

(** ** The scan-code table and the sweep *)

Lemma in_cells (i j : nat) : In (i, j) cells <-> (i < 14)%nat /\ (j < 6)%nat.
Proof.
  unfold cells. rewrite in_flat_map. split.
  - intros (i' & Hi & Hin). apply in_map_iff in Hin as (j' & Heq & Hj).
    injection Heq as -> ->. apply in_seq in Hi, Hj. lia.
  - intros [Hi Hj]. exists i. split; [apply in_seq; lia|].
    apply in_map_iff. exists j. split; [reflexivity | apply in_seq; lia].
Qed.

(** X21: no two keys share their codes: the make sequence, and the break
    sequence, of a populated position differ from those of every other
    position of the matrix. *)
Theorem populated_keys_distinct (i j i' j' : nat) :
  (i < 14)%nat -> (j < 6)%nat -> (i' < 14)%nat -> (j' < 6)%nat ->
  code_at i j <> 0 ->
  (i, j) <> (i', j') ->
  make_sequence (code_at i j) <> make_sequence (code_at i' j')
  /\ break_sequence (code_at i j) <> break_sequence (code_at i' j').
Proof.
  intros Hi Hj Hi' Hj' Hnz Hne.
  pose (ok := fun (c c' : nat * nat) =>
    (code_at c.1 c.2 =? 0) || bool_decide (c = c')
    || (negb (bool_decide (make_sequence (code_at c.1 c.2)
                           = make_sequence (code_at c'.1 c'.2)))
        && negb (bool_decide (break_sequence (code_at c.1 c.2)
                              = break_sequence (code_at c'.1 c'.2))))).
  assert (Hall : forallb (fun c => forallb (ok c) cells) cells = true)
    by (vm_compute; reflexivity).
  rewrite forallb_forall in Hall.
  specialize (Hall (i, j) (proj2 (in_cells i j) (conj Hi Hj))).
  rewrite forallb_forall in Hall.
  specialize (Hall (i', j') (proj2 (in_cells i' j') (conj Hi' Hj'))).
  unfold ok in Hall. cbn [fst snd] in Hall.
  rewrite (proj2 (Z.eqb_neq _ _) Hnz) in Hall.
  rewrite (bool_decide_eq_false_2 _ Hne) in Hall. cbn [orb] in Hall.
  apply andb_true_iff in Hall as [H1 H2].
  apply negb_true_iff, bool_decide_eq_false in H1, H2. split; assumption.
Qed.

Lemma populated_keys_distinct_witness :
  make_sequence (code_at 2 0) <> make_sequence (code_at 9 0).
Proof.
  apply (populated_keys_distinct 2 0 9 0); try lia; discriminate.
Defined.

Lemma visited_app (a b : list op) : visited (a ++ b) = visited a ++ visited b.
Proof.
  induction a as [|o a IH]; [reflexivity|].
  destruct o; cbn [app visited]; rewrite IH; reflexivity.
Qed.

Lemma visited_ticks (n : nat) : visited (replicate n Tick) = [].
Proof. induction n as [|n IH]; [reflexivity | exact IH]. Qed.

Lemma examined_app (a b : list op) : examined (a ++ b) = examined a ++ examined b.
Proof.
  induction a as [|o a IH]; [reflexivity|].
  destruct o as [|i j [|] pressed|]; cbn [app examined]; rewrite IH; reflexivity.
Qed.

Lemma examined_ticks (n : nat) : examined (replicate n Tick) = [].
Proof. induction n as [|n IH]; [reflexivity | exact IH]. Qed.

Lemma sweep_from_prefix (read : nat -> nat -> reading) (cs : list (nat * nat)) :
  exists rest, cs = visited (sweep_from cs read) ++ rest.
Proof.
  induction cs as [|[i j] cs IH].
  - exists []. reflexivity.
  - cbn [sweep_from]. rewrite visited_app, visited_ticks. cbn [app visited].
    destruct (clock (read i j)).
    + destruct IH as (rest & Heq). exists rest. cbn [app]. f_equal. exact Heq.
    + exists cs. reflexivity.
Qed.

(** A sweep over cells that all read CLOCK high visits every one. *)
Lemma sweep_from_complete (read : nat -> nat -> reading) (cs : list (nat * nat)) :
  (forall c, In c cs -> clock (read c.1 c.2) = true) ->
  sweep_from cs read = flat_map (visit_ops read true) cs.
Proof.
  induction cs as [|[i j] cs IH]; intros Hhigh; [reflexivity|].
  pose proof (Hhigh (i, j) (or_introl eq_refl)) as Hc. cbn [fst snd] in Hc.
  cbn [sweep_from flat_map]. unfold visit_ops at 1. cbn [fst snd].
  rewrite Hc, <- app_assoc. cbn [app]. rewrite IH; [reflexivity|].
  intros c Hin. apply Hhigh. right. exact Hin.
Qed.

(** A sweep ends with the first visit that reads CLOCK low. *)
Lemma sweep_from_abort (read : nat -> nat -> reading)
    (pre : list (nat * nat)) (c : nat * nat) (rest : list (nat * nat)) :
  (forall c', In c' pre -> clock (read c'.1 c'.2) = true) ->
  clock (read c.1 c.2) = false ->
  sweep_from (pre ++ c :: rest) read
  = flat_map (visit_ops read true) pre ++ visit_ops read false c.
Proof.
  induction pre as [|[i j] pre IH]; intros Hhigh Hlow.
  - destruct c as [i j]. cbn [fst snd] in Hlow.
    cbn [app sweep_from flat_map]. unfold visit_ops. cbn [fst snd].
    rewrite Hlow. reflexivity.
  - pose proof (Hhigh (i, j) (or_introl eq_refl)) as Hc. cbn [fst snd] in Hc.
    cbn [app sweep_from flat_map]. unfold visit_ops at 1. cbn [fst snd].
    rewrite Hc, <- !app_assoc. cbn [app]. rewrite IH; [reflexivity| |exact Hlow].
    intros c' Hin. apply Hhigh. right. exact Hin.
Qed.

Lemma visited_visits (read : nat -> nat -> reading) (clk : bool)
    (cs : list (nat * nat)) :
  visited (flat_map (visit_ops read clk) cs) = cs.
Proof.
  induction cs as [|[i j] cs IH]; [reflexivity|].
  cbn [flat_map]. unfold visit_ops at 1.
  rewrite !visited_app, visited_ticks, IH. reflexivity.
Qed.

Lemma examined_visits (read : nat -> nat -> reading) (cs : list (nat * nat)) :
  examined (flat_map (visit_ops read true) cs) = cs.
Proof.
  induction cs as [|[i j] cs IH]; [reflexivity|].
  cbn [flat_map]. unfold visit_ops at 1.
  rewrite !examined_app, examined_ticks, IH. reflexivity.
Qed.

(** X22: a sweep visits the 84 distinct cells in the order of the two
    loops and ends at the first cell where CLOCK reads low.  When the
    cells before some cell all read CLOCK high and that cell reads it
    low, the sweep is the visits of the cells before it, each after its
    ticks and with its row reading, followed by the aborted visit of
    that cell and nothing more: the keys looked at are exactly the
    cells before it, and the aborted visit changes and emits nothing.
    When CLOCK reads high at every cell, all 84 keys are looked at. *)
Theorem sweep_coverage (read : nat -> nat -> reading) :
  (exists rest, cells = visited (sweep read) ++ rest)
  /\ (forall pre c rest,
      cells = pre ++ c :: rest ->
      (forall c', In c' pre -> clock (read c'.1 c'.2) = true) ->
      clock (read c.1 c.2) = false ->
      sweep read = flat_map (visit_ops read true) pre ++ visit_ops read false c
      /\ visited (sweep read) = pre ++ [c]
      /\ examined (sweep read) = pre
      /\ forall w, run (visit_ops read false c) w
                   = run (replicate (ticks (read c.1 c.2)) Tick) w)
  /\ ((forall i j, (i < 14)%nat -> (j < 6)%nat -> clock (read i j) = true) ->
      sweep read = flat_map (visit_ops read true) cells
      /\ visited (sweep read) = cells
      /\ examined (sweep read) = cells)
  /\ NoDup cells /\ length cells = 84%nat.
Proof.
  split; [apply sweep_from_prefix|]. split; [|split].
  - intros pre c rest Hcells Hhigh Hlow. unfold sweep. rewrite Hcells.
    rewrite (sweep_from_abort read pre c rest Hhigh Hlow).
    split; [reflexivity|]. split; [|split].
    + rewrite visited_app, visited_visits. unfold visit_ops.
      rewrite visited_app, visited_ticks. destruct c; reflexivity.
    + rewrite examined_app, examined_visits. unfold visit_ops.
      rewrite examined_app, examined_ticks. cbn [app examined].
      apply app_nil_r.
    + intros w. unfold visit_ops.
      generalize (ticks (read c.1 c.2)). intros n. revert w.
      induction n as [|n IH]; intros w.
      * cbn [replicate app]. rewrite run_cons, scan_aborted. reflexivity.
      * cbn [replicate app]. rewrite !run_cons.
        destruct (val (step Tick w)); [|reflexivity].
        rewrite IH. reflexivity.
  - intros Hhigh. unfold sweep.
    rewrite sweep_from_complete.
    + split; [reflexivity|].
      split; [apply visited_visits | apply examined_visits].
    + intros [i j] Hin. apply in_cells in Hin as [Hi Hj]. apply Hhigh; assumption.
  - split; [|reflexivity].
    apply (bool_decide_eq_true_1 (NoDup cells)). vm_compute. reflexivity.
Qed.

(** CLOCK pulled low when the scanner reaches cell (2, 3): the sixteen
    cells of columns 0 and 1 and rows 0 to 2 of column 2 are looked at,
    and nothing after them. *)
Lemma sweep_coverage_witness :
  let read := fun i j =>
    Reading 0 (negb (bool_decide (i = 2%nat) && bool_decide (j = 3%nat))) false in
  visited (sweep read) = take 16 cells
  /\ examined (sweep read) = take 15 cells.
Proof.
  cbv zeta.
  destruct (sweep_coverage (fun i j =>
              Reading 0 (negb (bool_decide (i = 2%nat) && bool_decide (j = 3%nat)))
                      false)) as (_ & Habort & _).
  destruct (Habort (take 15 cells) (2%nat, 3%nat) (drop 16 cells))
    as (_ & Hv & He & _).
  - reflexivity.
  - intros c' Hin.
    assert (Hall : forallb (fun c : nat * nat =>
               negb (bool_decide (c.1 = 2%nat) && bool_decide (c.2 = 3%nat)))
               (take 15 cells) = true) by (vm_compute; reflexivity).
    rewrite forallb_forall in Hall. exact (Hall c' Hin).
  - reflexivity.
  - split; [exact Hv | exact He].
Defined.
